(** * The Mandelbrot viewer: escape-time evaluator, palette, viewport and
      render cycle of [mandelbrot.c] and [graphics.c].

    C [int]s are integers [Z] (every value met here stays far inside the
    [int] range), a [double] is a value of a type [D] carrying the
    arithmetic the code uses; the program runs it at IEEE binary64
    ([spec_float] at precision 53). What the rounding of binary64 leaves
    of an exact result is stated on the rational a [double] stands for. *)

From Stdlib Require Import ZArith QArith Qfield Qpower Qabs Bool Lia Lqa Ascii.
From Stdlib Require Import Floats.SpecFloat.
From stdpp Require Import base list.

Open Scope Z_scope.

(** ** Double arithmetic *)

Class DoubleOps (D : Type) := {
  dadd : D -> D -> D;
  dsub : D -> D -> D;
  dmul : D -> D -> D;
  ddiv : D -> D -> D;
  dgt : D -> D -> bool;          (* the C test [a > b] *)
  dof_int : Z -> D               (* conversion of an [int] to [double] *)
}.

Module B64.
Definition prec : Z := 53.
Definition emax : Z := 1024.

Definition add := SFadd prec emax.
Definition sub := SFsub prec emax.
Definition mul := SFmul prec emax.
Definition div := SFdiv prec emax.
Definition gt (a b : spec_float) : bool := SFltb b a.
Definition of_int (n : Z) : spec_float := binary_normalize prec emax n 0 false.

Definition pinf : spec_float := S754_infinity false.
End B64.

#[export] Instance binary64 : DoubleOps spec_float := {
  dadd := B64.add; dsub := B64.sub; dmul := B64.mul; ddiv := B64.div;
  dgt := B64.gt; dof_int := B64.of_int
}.

(** ** [double complex] and the two libm calls of the evaluator *)

Record Complex (D : Type) := mkComplex { creal : D; cimag : D }.
Arguments mkComplex {D} _ _.
Arguments creal {D} _.
Arguments cimag {D} _.

(** [cpow] and [cabs] come from the C library; the evaluator is read for
    any implementation of them. *)
Class CMath (D : Type) := {
  cpow : Complex D -> Complex D -> Complex D;
  cabs : Complex D -> D
}.

Inductive EscapeResult := Escaped (iteration : Z) | Bounded.

Section Evaluator.
Context {D : Type} {ops : DoubleOps D} {libm : CMath D}.
(** Both constants are macros of [header.h]. *)
Variable MAX_ITERATION : Z.
Variable _INFINITY : D.

Definition complex_of_int (n : Z) : Complex D := mkComplex (dof_int n) (dof_int 0).

Definition cadd (a b : Complex D) : Complex D :=
  mkComplex (dadd (creal a) (creal b)) (dadd (cimag a) (cimag b)).

(** The [for] loop of [mandelbrot_in_set], entered with [k] iterations
    left before [i] reaches [MAX_ITERATION]. The result is the value
    returned together with the number of times the body ran. *)
Fixpoint in_set_loop (c : Complex D) (k : nat) (i : Z) (z : Complex D) : Z * nat :=
  match k with
  | O => (-1, O)
  | S k' =>
      let z' := cadd (cpow z (complex_of_int 2)) c in
      if dgt (cabs z') _INFINITY then (i, 1%nat)
      else let '(r, n) := in_set_loop c k' (i + 1) z' in (r, S n)
  end.

(** The same loop with its test [i < MAX_ITERATION] written out, allowed
    [fuel] evaluations of the test; [None] when they do not suffice. *)
Fixpoint in_set_while (c : Complex D) (fuel : nat) (i : Z) (z : Complex D)
    : option (Z * nat) :=
  match fuel with
  | O => None
  | S fuel' =>
      if i <? MAX_ITERATION then
        let z' := cadd (cpow z (complex_of_int 2)) c in
        if dgt (cabs z') _INFINITY then Some (i, 1%nat)
        else match in_set_while c fuel' (i + 1) z' with
             | Some (r, n) => Some (r, S n)
             | None => None
             end
      else Some (-1, O)
  end.

(** [mandelbrot_in_set]: [i] starts at 0, so the loop is entered with
    [MAX_ITERATION - 0] iterations left (none when [MAX_ITERATION <= 0]),
    and [z] starts at 0. *)
Definition mandelbrot_run (c : Complex D) : Z * nat :=
  in_set_loop c (Z.to_nat (MAX_ITERATION - 0)) 0 (complex_of_int 0).

Definition mandelbrot_in_set (c : Complex D) : Z := fst (mandelbrot_run c).

(** The spec's reading of the returned [int]. *)
Definition evaluate (c : Complex D) : EscapeResult :=
  let r := mandelbrot_in_set c in
  if r =? -1 then Bounded else Escaped r.
End Evaluator.

(** ** Colors and the palette *)

Module Color.
(** Modelled from the spec: the [Color] type of [header.h], read through
    its channel view [rgb]; a channel is one byte. *)
Record t := mk { r : Z; g : Z; b : Z }.

(** Storing an [int] into a one-byte channel. *)
Definition u8 (n : Z) : Z := n mod 256.

(** Modelled from the spec: the colour whose packed view [hexcode] is
    [h], taken with [r] in the low byte, [g] and [b] above it. *)
Definition of_hexcode (h : Z) : t :=
  mk (Z.land h 255) (Z.land (Z.shiftr h 8) 255) (Z.land (Z.shiftr h 16) 255).
End Color.

Definition IN_SET_COLOR : Z := 0x050505.
Definition PALETTE_START : Z := 0x000022.
Definition PALETTE_END : Z := 0xd62f2f.

Section Palette.
Variable MAX_ITERATION : Z.

(** [abs(end.rgb.c - start.rgb.c) / MAX_ITERATION], on [int]s. *)
Definition channel_step (s e : Z) : Z := Z.quot (Z.abs (e - s)) MAX_ITERATION.

(** What one turn of the filling loop stores at index [i]: each sum is
    an [int], cut to a byte by the store into the channel. *)
Definition palette_slot (start : Color.t) (red_step green_step blue_step i : Z)
    : Color.t :=
  Color.mk (Color.u8 (i * red_step + Color.r start))
           (Color.u8 (i * green_step + Color.g start))
           (Color.u8 (i * blue_step + Color.b start)).

(** The filling loop, with [k] iterations left. *)
Fixpoint palette_loop (start : Color.t) (red_step green_step blue_step : Z)
    (k : nat) (i : Z) (palette : list Color.t) : list Color.t :=
  match k with
  | O => palette
  | S k' =>
      palette_loop start red_step green_step blue_step k' (i + 1)
        (<[Z.to_nat i := palette_slot start red_step green_step blue_step i]> palette)
  end.

(** [mem] is what [malloc(sizeof(Color) * (MAX_ITERATION + 1))] returned:
    [None] for [NULL], otherwise a block of [MAX_ITERATION + 1] slots
    whose content is not specified. *)
Definition create_palette (mem : option (list Color.t)) (start end_ : Color.t)
    : option (list Color.t) :=
  let red_step := channel_step (Color.r start) (Color.r end_) in
  let green_step := channel_step (Color.g start) (Color.g end_) in
  let blue_step := channel_step (Color.b start) (Color.b end_) in
  match mem with
  | None => None
  | Some palette =>
      let palette :=
        palette_loop start red_step green_step blue_step
                     (Z.to_nat (MAX_ITERATION - 0)) 0 palette in
      Some (<[Z.to_nat MAX_ITERATION := Color.of_hexcode 0x0]> palette)
  end.
End Palette.

(** ** The render state *)

Module Point.
Record t (D : Type) := mk { x : D; y : D }.
Arguments mk {D} _ _.
Arguments x {D} _.
Arguments y {D} _.
End Point.

Module Config.
Record t (D : Type) := mk {
  window_w : Z; window_h : Z;
  real_range : D; imag_range : D;
  center_x : D; center_y : D
}.
Arguments mk {D} _ _ _ _ _ _.
Arguments window_w {D} _.
Arguments window_h {D} _.
Arguments real_range {D} _.
Arguments imag_range {D} _.
Arguments center_x {D} _.
Arguments center_y {D} _.
End Config.

(** The fields of [GState] the engine computes with; the SDL handles
    ([window], [renderer], [canvas]) belong to the host. *)
Record GState (D : Type) := mkGState {
  running : bool;
  window_w : Z;
  window_h : Z;
  real_range : D;
  imag_range : D;
  center : Point.t D;
  in_set_color : Color.t;
  palette : list Color.t;
  moving : bool;
  changed : bool
}.
Arguments mkGState {D} _ _ _ _ _ _ _ _ _ _.
Arguments running {D} _.
Arguments window_w {D} _.
Arguments window_h {D} _.
Arguments real_range {D} _.
Arguments imag_range {D} _.
Arguments center {D} _.
Arguments in_set_color {D} _.
Arguments palette {D} _.
Arguments moving {D} _.
Arguments changed {D} _.

Section Setters.
Context {D : Type}.

Definition set_running (v : bool) (s : GState D) : GState D :=
  mkGState v (window_w s) (window_h s) (real_range s) (imag_range s)
           (center s) (in_set_color s) (palette s) (moving s) (changed s).

Definition set_changed (v : bool) (s : GState D) : GState D :=
  mkGState (running s) (window_w s) (window_h s) (real_range s) (imag_range s)
           (center s) (in_set_color s) (palette s) (moving s) v.

Definition set_center (p : Point.t D) (s : GState D) : GState D :=
  mkGState (running s) (window_w s) (window_h s) (real_range s) (imag_range s)
           p (in_set_color s) (palette s) (moving s) (changed s).

Definition set_center_x (v : D) (s : GState D) : GState D :=
  set_center (Point.mk v (Point.y (center s))) s.

Definition set_center_y (v : D) (s : GState D) : GState D :=
  set_center (Point.mk (Point.x (center s)) v) s.

Definition set_real_range (v : D) (s : GState D) : GState D :=
  mkGState (running s) (window_w s) (window_h s) v (imag_range s)
           (center s) (in_set_color s) (palette s) (moving s) (changed s).

Definition set_imag_range (v : D) (s : GState D) : GState D :=
  mkGState (running s) (window_w s) (window_h s) (real_range s) v
           (center s) (in_set_color s) (palette s) (moving s) (changed s).
End Setters.

(** ** Input events, as [event_handler] tells them apart *)

Inductive Keycode :=
  | SDLK_UP | SDLK_k | SDLK_DOWN | SDLK_j
  | SDLK_LEFT | SDLK_h | SDLK_RIGHT | SDLK_l
  | SDLK_PLUS | SDLK_p | SDLK_MINUS | SDLK_m
  | SDLK_q
  | SDLK_other.

Inductive Button := SDL_BUTTON_LEFT | SDL_BUTTON_MIDDLE | SDL_BUTTON_RIGHT.

Inductive SDL_Event :=
  | SDL_QUIT
  | SDL_KEYDOWN (sym : Keycode)
  | SDL_MOUSEWHEEL (wheel_y : Z)
  | SDL_MOUSEBUTTONDOWN (button : Button) (button_x button_y : Z)
  | SDL_OTHER.                     (* any type the [switch] has no case for *)

(** ** Viewport arithmetic and the event handler *)

Definition MOVE_RATIO : Z := 10.

Section Viewport.
Context {D : Type} {ops : DoubleOps D}.

(** The literal [1.1]: the [double] nearest to 11/10, which is the
    correctly rounded quotient of the two integers. *)
Definition ZOOM_RATIO : D := ddiv (dof_int 11) (dof_int 10).

Definition REAL_LO (state : GState D) : D :=
  dsub (Point.x (center state)) (ddiv (real_range state) (dof_int 2)).
Definition REAL_HI (state : GState D) : D :=
  dadd (Point.x (center state)) (ddiv (real_range state) (dof_int 2)).
Definition IMAG_LO (state : GState D) : D :=
  dsub (Point.y (center state)) (ddiv (imag_range state) (dof_int 2)).
Definition IMAG_HI (state : GState D) : D :=
  dadd (Point.y (center state)) (ddiv (imag_range state) (dof_int 2)).

(** Modelled from the spec: [map_range], declared in [header.h] and
    defined outside the two source files. The spec's formula is
    [lo + (in - in_domain_lo) * (out_hi - out_lo) / (in_domain_hi - in_domain_lo)],
    whose leading term is the low end of the output interval (pixel 0
    maps to the low bound). All five arguments are [double]s. *)
Definition map_range (v in_lo in_hi out_lo out_hi : D) : D :=
  dadd out_lo (ddiv (dmul (dsub v in_lo) (dsub out_hi out_lo)) (dsub in_hi in_lo)).

Definition recenter_x (state : GState D) (x : Z) : GState D :=
  set_center_x (map_range (dof_int x) (dof_int 0) (dof_int (window_w state))
                          (REAL_LO state) (REAL_HI state)) state.

Definition recenter_y (state : GState D) (y : Z) : GState D :=
  set_center_y (map_range (dof_int y) (dof_int 0) (dof_int (window_w state))
                          (IMAG_LO state) (IMAG_HI state)) state.

Definition recenter (state : GState D) (x y : Z) : GState D :=
  recenter_y (recenter_x state x) y.

Definition zoom_in (state : GState D) (ratio : D) : GState D :=
  let state := set_real_range (ddiv (real_range state) ratio) state in
  set_imag_range (ddiv (imag_range state) ratio) state.

Definition zoom_out (state : GState D) (ratio : D) : GState D :=
  let state := set_real_range (dmul (real_range state) ratio) state in
  set_imag_range (dmul (imag_range state) ratio) state.

(** The [switch] of [event_handler] on one polled event. The [printf]
    of the mouse-button case writes to the terminal only. *)
Definition dispatch (state : GState D) (e : SDL_Event) : GState D :=
  match e with
  | SDL_QUIT => set_running false state
  | SDL_KEYDOWN sym =>
      match sym with
      | SDLK_UP | SDLK_k =>
          set_center_y (dsub (Point.y (center state))
                             (ddiv (imag_range state) (dof_int MOVE_RATIO))) state
      | SDLK_DOWN | SDLK_j =>
          set_center_y (dadd (Point.y (center state))
                             (ddiv (imag_range state) (dof_int MOVE_RATIO))) state
      | SDLK_LEFT | SDLK_h =>
          set_center_x (dsub (Point.x (center state))
                             (ddiv (real_range state) (dof_int MOVE_RATIO))) state
      | SDLK_RIGHT | SDLK_l =>
          set_center_x (dadd (Point.x (center state))
                             (ddiv (real_range state) (dof_int MOVE_RATIO))) state
      | SDLK_PLUS | SDLK_p => zoom_in state ZOOM_RATIO
      | SDLK_MINUS | SDLK_m => zoom_out state ZOOM_RATIO
      | SDLK_q => set_running false state
      | SDLK_other => state
      end
  | SDL_MOUSEWHEEL wheel_y =>
      if wheel_y =? -1 then zoom_in state ZOOM_RATIO
      else if wheel_y =? 1 then zoom_out state ZOOM_RATIO
      else state
  | SDL_MOUSEBUTTONDOWN button x y =>
      match button with
      | SDL_BUTTON_RIGHT => recenter state x y
      | _ => state
      end
  | SDL_OTHER => state
  end.

(** One turn of the [while (SDL_PollEvent(&e))] loop. *)
Definition handle_event (state : GState D) (e : SDL_Event) : GState D :=
  set_changed true (dispatch state e).

(** [event_handler], given the events [SDL_PollEvent] hands over, in
    order, before it reports an empty queue. *)
Definition event_handler (state : GState D) (queue : list SDL_Event) : GState D :=
  fold_left handle_event queue state.
End Viewport.

(** ** The pixel buffer and the render cycle *)

Section Render.
Context {D : Type} {ops : DoubleOps D} {libm : CMath D}.
Variable MAX_ITERATION : Z.
Variable _INFINITY : D.

(** Modelled from the spec: the in-set colour the builder holds apart
    from the palette. The call in [update] passes the palette and no
    such colour, so it stands here as a parameter of the builder. *)
Variable in_set : Color.t.

(** Modelled from the spec: the colour [mandelbrot_pixels] writes for
    pixel [(x, y)]. The plane point is the [map_range] image of the
    pixel, columns over [[0, width)] and rows over [[0, height)];
    [Escaped n] takes [palette[n]], [Bounded] takes the in-set colour. *)
Definition pixel_color (real_lo real_hi imag_lo imag_hi : D) (width height : Z)
    (palette : list Color.t) (x y : Z) : Color.t :=
  let re := map_range (dof_int x) (dof_int 0) (dof_int width) real_lo real_hi in
  let im := map_range (dof_int y) (dof_int 0) (dof_int height) imag_lo imag_hi in
  match evaluate MAX_ITERATION _INFINITY (mkComplex re im) with
  | Escaped n => default (Color.of_hexcode 0x0) (palette !! Z.to_nat n)
  | Bounded => in_set
  end.

(** Modelled from the spec: [mandelbrot_pixels], declared in [header.h]
    and defined outside the two source files, with the seven arguments
    of its call in [update]. The raster is row-major, one colour per
    pixel, rows [0 .. height-1] and columns [0 .. width-1]. *)
Definition mandelbrot_pixels (real_lo real_hi imag_lo imag_hi : D) (width height : Z)
    (palette : list Color.t) : list Color.t :=
  mjoin ((fun y =>
            (fun x => pixel_color real_lo real_hi imag_lo imag_hi width height palette x y)
              <$> seqZ 0 width)
           <$> seqZ 0 height).

(** [host_ok state] tells whether every allocation and SDL call made by
    [update] in this state succeeds; when one fails the process leaves
    through [error_exit_state]. *)
Variable host_ok : GState D -> bool.

(** [update]: the raster handed to [SDL_RenderPresent], or [None] when
    the process exits with an error. *)
Definition update (state : GState D) : option (list Color.t) :=
  let pixels := mandelbrot_pixels (REAL_LO state) (REAL_HI state)
                                  (IMAG_LO state) (IMAG_HI state)
                                  (window_w state) (window_h state) (palette state) in
  if host_ok state then Some pixels else None.

(** The body of the [while (state->running)] loop: the new state and the
    frames presented during this tick. *)
Definition tick (state : GState D) (queue : list SDL_Event)
    : option (GState D * list (list Color.t)) :=
  let state := event_handler state queue in
  if changed state then
    match update state with
    | Some frame => Some (set_changed false state, [frame])
    | None => None
    end
  else Some (state, []).

(** [graphics_run] over the ticks for which the event queue is known;
    [frames] collects what has been presented so far. *)
Fixpoint graphics_run (ticks : list (list SDL_Event)) (state : GState D)
    (frames : list (list Color.t)) : option (GState D * list (list Color.t)) :=
  match ticks with
  | [] => Some (state, frames)
  | queue :: ticks' =>
      if running state then
        match tick state queue with
        | Some (state', shown) => graphics_run ticks' state' (frames ++ shown)
        | None => None
        end
      else Some (state, frames)
  end.

(** [graphics_init]. [sdl_ok] tells whether [SDL_Init], the allocation
    of the state and the creation of the window, the renderer and the
    canvas texture all succeed (any failure leaves through
    [error_exit]); [mem] is the block [create_palette] obtains. *)
Definition graphics_init (sdl_ok : bool) (mem : option (list Color.t))
    (config : Config.t D) : option (GState D) :=
  if sdl_ok then
    match create_palette MAX_ITERATION mem
            (Color.of_hexcode PALETTE_START) (Color.of_hexcode PALETTE_END) with
    | None => None
    | Some pal =>
        Some (mkGState true (Config.window_w config) (Config.window_h config)
                (Config.real_range config) (Config.imag_range config)
                (Point.mk (Config.center_x config) (Config.center_y config))
                (Color.of_hexcode IN_SET_COLOR) pal false true)
    end
  else None.
End Render.

(** ** Values of [header.h] the spec fixes, and a plain libm *)

Module Header.
(** Modelled from the spec: the macro [_INFINITY] of [header.h], the
    threshold of the escape test. The spec describes it as an unbounded,
    "infinite" value that the modulus is compared against; at binary64
    that is positive infinity. *)
Definition _INFINITY : spec_float := B64.pinf.
End Header.

(** A direct implementation of the two libm calls at binary64, for
    running the evaluator: [cpow] at the exponent 2 the evaluator passes,
    by one complex multiplication, and [cabs] as the square root of the
    sum of squares. *)
Definition csquare (z : Complex spec_float) : Complex spec_float :=
  mkComplex (B64.sub (B64.mul (creal z) (creal z)) (B64.mul (cimag z) (cimag z)))
            (B64.add (B64.mul (creal z) (cimag z)) (B64.mul (cimag z) (creal z))).

Definition plain_libm : CMath spec_float := {|
  cpow := fun z _ => csquare z;
  cabs := fun z => SFsqrt B64.prec B64.emax
                     (B64.add (B64.mul (creal z) (creal z)) (B64.mul (cimag z) (cimag z)))
|}.

(** ** The iterates of the evaluator's loop body *)

Section Orbit.
Context {D : Type} {ops : DoubleOps D} {libm : CMath D}.

(** [z] after [n] more runs of the loop body [z = cpow(z, 2) + c]. *)
Fixpoint orbit_from (c z : Complex D) (n : nat) : Complex D :=
  match n with
  | O => z
  | S n' => orbit_from c (cadd (cpow z (complex_of_int 2)) c) n'
  end.

(** [z] after [n] runs of the body, from the initial [z = 0]. *)
Definition orbit (c : Complex D) (n : nat) : Complex D :=
  orbit_from c (complex_of_int 0) n.
End Orbit.

(** ** The console dump of [mandelbrot.c] *)

Definition IN_CHAR : ascii := "*"%char.
Definition OUT_CHAR : ascii := " "%char.

Section Console.
Context {D : Type} {ops : DoubleOps D} {libm : CMath D}.
Variable MAX_ITERATION : Z.
Variable _INFINITY : D.
(** The plane bounds [REAL_LO], [REAL_HI], [IMAG_LO] and [IMAG_HI] that
    [mandelbrot.c] reads are constants of [header.h]. *)
Variables real_lo real_hi imag_lo imag_hi : D.

Definition AXIS_DIV : D := dof_int 46.
Definition REAL_AXIS_STEP : D := ddiv (dsub real_hi real_lo) AXIS_DIV.
Definition IMAG_AXIS_STEP : D := ddiv (dsub imag_hi imag_lo) AXIS_DIV.

(** The argument [r + i * I]: the product of the real [i] with
    [I = 0 + 1i] and the sum with the real [r], both componentwise. *)
Definition print_point (r i : D) : Complex D :=
  mkComplex (dadd r (dmul i (dof_int 0))) (dmul i (dof_int 1)).

(** The character for one sample: the [if] tests the returned [int]
    against zero. *)
Definition print_cell (r i : D) : ascii :=
  if mandelbrot_in_set MAX_ITERATION _INFINITY (print_point r i) =? 0
  then OUT_CHAR else IN_CHAR.

(** The inner loop from [r] on; [fuel] bounds the number of tests
    [r < REAL_HI], [None] when it does not suffice. *)
Fixpoint print_row (fuel : nat) (i r : D) : option (list ascii) :=
  match fuel with
  | O => None
  | S fuel' =>
      if dgt real_hi r then
        match print_row fuel' i (dadd r REAL_AXIS_STEP) with
        | Some out => Some (print_cell r i :: " "%char :: out)
        | None => None
        end
      else Some []
  end.

(** The outer loop from [i] on, each row closed by a newline. *)
Fixpoint print_rows (fuel : nat) (i : D) : option (list ascii) :=
  match fuel with
  | O => None
  | S fuel' =>
      if dgt imag_hi i then
        match print_row fuel i real_lo with
        | Some row =>
            match print_rows fuel' (dadd i IMAG_AXIS_STEP) with
            | Some out => Some (row ++ "010"%char :: out)
            | None => None
            end
        | None => None
        end
      else Some []
  end.

(** [mandelbrot_print]: the characters written to the terminal. *)
Definition mandelbrot_print (fuel : nat) : option (list ascii) :=
  print_rows fuel imag_lo.
End Console.

(** States and numbers to run the code on. *)
Definition sample_state {D : Type} (w h : Z) (cx cy rr ir : D) : GState D :=
  mkGState true w h rr ir (Point.mk cx cy) (Color.of_hexcode IN_SET_COLOR) [] false false.

Definition b64_ratio (a b : Z) : spec_float := B64.div (B64.of_int a) (B64.of_int b).

(** 2^1023, a finite binary64 value. *)
Definition b64_huge : spec_float := S754_finite false 4503599627370496 971.

(** ** The number a [double] stands for, and what rounding leaves of it *)

(** The rational a finite binary64 value stands for. The zeros stand for
    0; infinities and NaN stand for no number, and the statements that
    use [B64_value] ask for [B64_finite] values. *)
Definition B64_value (x : spec_float) : Q :=
  match x with
  | S754_finite s m e =>
      let v := (inject_Z (Zpos m) * 2 ^ e)%Q in if s then (- v)%Q else v
  | _ => 0%Q
  end.

(** A zero or a finite number: neither an infinity nor NaN. *)
Definition B64_finite (x : spec_float) : bool :=
  match x with
  | S754_zero _ | S754_finite _ _ _ => true
  | _ => false
  end.

(** A finite number above zero. *)
Definition B64_positive (x : spec_float) : bool :=
  match x with
  | S754_finite false _ _ => true
  | _ => false
  end.

(** [+0], a finite number above zero, or [+infinity]: a value that is
    neither negative nor NaN. *)
Definition B64_nonneg (x : spec_float) : bool :=
  match x with
  | S754_zero false | S754_finite false _ _ | S754_infinity false => true
  | _ => false
  end.

(** A finite number whose significand has its top bit set. For the
    result of an arithmetic operation this says that the operation
    neither overflowed nor fell into the subnormal range (nor to zero). *)
Definition B64_normal (x : spec_float) : bool :=
  match x with
  | S754_finite _ m _ => 2 ^ 52 <=? Zpos m
  | _ => false
  end.

Definition signed (s : bool) (v : Q) : Q := if s then (- v)%Q else v.

(** The relative error one operation with a normal result can leave. *)
Definition B64_DELTA : Q := 3 # (2 ^ 53).

(** [v'] is [v] up to the relative error [B64_DELTA]. *)
Definition rel_near (v' v : Q) : Prop :=
  (Qabs (v' - v) <= B64_DELTA * Qabs v')%Q.

(** The result [res] of an operation whose exact result is [exact] is a
    normal number, or it is the exact result. This leaves out overflow
    and a rounded subnormal result, and allows a zero or a subnormal
    number that is exact. *)
Definition B64_rounded (res : spec_float) (exact : Q) : Prop :=
  B64_normal res = true \/ (B64_finite res = true /\ (B64_value res == exact)%Q).

Definition B64_near (res : spec_float) (exact : Q) : Prop :=
  B64_finite res = true /\ rel_near (B64_value res) exact.

(** The position of a number [x] against the integer [m] that the
    rounding of [SpecFloat] carries along as a [location]. *)
Definition inbetween (m : Z) (x : Q) (l : location) : Prop :=
  match l with
  | loc_Exact => (x == inject_Z m)%Q
  | loc_Inexact c =>
      (inject_Z m < x)%Q /\ (x < inject_Z m + 1)%Q /\
      match c with
      | Lt => (x < inject_Z m + (1 # 2))%Q
      | Eq => (x == inject_Z m + (1 # 2))%Q
      | Gt => (inject_Z m + (1 # 2) < x)%Q
      end
  end.

Definition shr_inv (mrs : shr_record) (x : Q) : Prop :=
  0 <= shr_m mrs /\ inbetween (shr_m mrs) x (loc_of_shr_record mrs).

(** The tolerances of the zoom round trip and of the recentering at the
    middle column, relative to the sizes involved. *)
Definition ZOOM_TOLERANCE : Q := 1 # (2 ^ 50).
Definition RECENTER_TOLERANCE : Q := 1 # (2 ^ 49).

(** Each of the seven double operations that [recenter_x state x] goes
    through ([REAL_LO], [REAL_HI] and [map_range]) returns a normal
    number or its exact result. The two subtractions of [0] in
    [map_range] are exact as they are. *)
Definition recenter_x_rounded (state : GState spec_float) (x : Z) : Prop :=
  let cx := Point.x (center state) in
  let half := ddiv (real_range state) (dof_int 2) in
  let lo := REAL_LO state in
  let hi := REAL_HI state in
  let dx := dsub (dof_int x) (dof_int 0) in
  let dw := dsub (dof_int (window_w state)) (dof_int 0) in
  let span := dsub hi lo in
  let prod := dmul dx span in
  let quot := ddiv prod dw in
  B64_rounded half (B64_value (real_range state) / B64_value (dof_int 2)) /\
  B64_rounded lo (B64_value cx - B64_value half) /\
  B64_rounded hi (B64_value cx + B64_value half) /\
  B64_rounded span (B64_value hi - B64_value lo) /\
  B64_rounded prod (B64_value dx * B64_value span) /\
  B64_rounded quot (B64_value prod / B64_value dw) /\
  B64_rounded (dadd lo quot) (B64_value lo + B64_value quot).

(** * Properties *)

(** ** The evaluator *)

Lemma B64_gt_pinf (a : spec_float) : B64.gt a B64.pinf = false.
Proof.
  unfold B64.gt, B64.pinf, SFltb.
  destruct a as [s | s | | s m e]; simpl; try reflexivity; destruct s; reflexivity.
Qed.

Lemma dgt_INFINITY (a : spec_float) : dgt a Header._INFINITY = false.
Proof. exact (B64_gt_pinf a). Qed.

Section EvaluatorFacts.
Context {D : Type} {ops : DoubleOps D} {libm : CMath D}.
Variable MAX_ITERATION : Z.
Variable threshold : D.

(** When the test never holds, the loop uses up its [k] iterations. *)
Lemma in_set_loop_no_escape (c : Complex D) :
  (forall a, dgt a threshold = false) ->
  forall k i z, in_set_loop threshold c k i z = (-1, k).
Proof.
  intros Hgt. induction k as [|k IH]; intros i z; simpl.
  - reflexivity.
  - rewrite Hgt, IH. reflexivity.
Qed.

(** Whatever the threshold: the value returned is [-1] or a loop index
    the loop went through, and the body ran at most [k] times. *)
Lemma in_set_loop_range (c : Complex D) :
  forall k i z,
    let '(r, n) := in_set_loop threshold c k i z in
    (r = -1 \/ i <= r < i + Z.of_nat k) /\ (n <= k)%nat.
Proof.
  induction k as [|k IH]; intros i z; simpl.
  - split; [left; reflexivity | lia].
  - destruct (dgt _ threshold).
    + split; [right; lia | lia].
    + specialize (IH (i + 1) (cadd (cpow z (complex_of_int 2)) c)).
      destruct (in_set_loop threshold c k (i + 1) _) as [r n].
      destruct IH as [[-> | Hr] Hn]; split; try lia.
Qed.

(** The loop with its test written out stops within [MAX_ITERATION - i]
    iterations, with the result of [in_set_loop]. *)
Lemma in_set_while_loop (c : Complex D) :
  forall fuel i z,
    (Z.to_nat (MAX_ITERATION - i) < fuel)%nat ->
    in_set_while MAX_ITERATION threshold c fuel i z
      = Some (in_set_loop threshold c (Z.to_nat (MAX_ITERATION - i)) i z).
Proof.
  induction fuel as [|fuel IH]; intros i z Hfuel; [lia|].
  simpl. destruct (Z.ltb_spec i MAX_ITERATION) as [Hlt | Hge].
  - replace (Z.to_nat (MAX_ITERATION - i))
      with (S (Z.to_nat (MAX_ITERATION - (i + 1)))) in * by lia.
    simpl. destruct (dgt _ threshold); [reflexivity|].
    rewrite IH by lia.
    destruct (in_set_loop threshold c _ (i + 1) _). reflexivity.
  - replace (Z.to_nat (MAX_ITERATION - i)) with O by lia. reflexivity.
Qed.
End EvaluatorFacts.

(** C1. With the escape test against the infinite threshold, the test is
    false for every modulus, so for every point [c] (and every libm and
    iteration bound) [mandelbrot_in_set] runs its body [MAX_ITERATION]
    times and returns the sentinel [-1]: every point is classified as in
    the set. *)
Theorem mandelbrot_in_set_never_escapes
    (libm : CMath spec_float) (MAX_ITERATION : Z) (c : Complex spec_float) :
  (forall a, dgt a Header._INFINITY = false) /\
  mandelbrot_run MAX_ITERATION Header._INFINITY c = (-1, Z.to_nat MAX_ITERATION) /\
  mandelbrot_in_set MAX_ITERATION Header._INFINITY c = -1 /\
  evaluate MAX_ITERATION Header._INFINITY c = Bounded.
Proof.
  pose proof dgt_INFINITY as Hgt.
  assert (Hrun : mandelbrot_run MAX_ITERATION Header._INFINITY c
                 = (-1, Z.to_nat MAX_ITERATION)).
  { unfold mandelbrot_run. rewrite (in_set_loop_no_escape _ _ Hgt).
    rewrite Z.sub_0_r. reflexivity. }
  repeat split; try assumption.
  - unfold mandelbrot_in_set. rewrite Hrun. reflexivity.
  - unfold evaluate, mandelbrot_in_set. rewrite Hrun. reflexivity.
Qed.

(** C2. At [c = 2 + 0i] the code returns [-1], that is [Bounded], where
    the spec's known-membership case asks for [Escaped 0]; at [0 + 0i] and
    [-1 + 0i] it returns [Bounded] as the spec says. *)
Theorem known_membership_on_code (libm : CMath spec_float) (MAX_ITERATION : Z) :
  evaluate MAX_ITERATION Header._INFINITY (complex_of_int 2) = Bounded /\
  evaluate MAX_ITERATION Header._INFINITY (complex_of_int 2) <> Escaped 0 /\
  evaluate MAX_ITERATION Header._INFINITY (complex_of_int 0) = Bounded /\
  evaluate MAX_ITERATION Header._INFINITY (complex_of_int (-1)) = Bounded.
Proof.
  assert (Hb : forall c, evaluate MAX_ITERATION Header._INFINITY c = Bounded).
  { intros c. unfold evaluate, mandelbrot_in_set, mandelbrot_run.
    rewrite (in_set_loop_no_escape _ _ dgt_INFINITY). reflexivity. }
  rewrite !Hb. repeat split; discriminate.
Qed.

(** C8. For every point [c], every threshold and every libm, the
    evaluator returns [Bounded] or [Escaped n] with [0 <= n < MAX_ITERATION],
    and its loop stops after at most [MAX_ITERATION] runs of the body: the
    loop with its test written out returns as soon as it is allowed more
    than [MAX_ITERATION] tests. *)
Theorem evaluator_bound {D : Type} (ops : DoubleOps D) (libm : CMath D)
    (MAX_ITERATION : Z) (threshold : D) (c : Complex D) :
  (evaluate MAX_ITERATION threshold c = Bounded \/
   exists n, evaluate MAX_ITERATION threshold c = Escaped n /\ 0 <= n < MAX_ITERATION) /\
  Z.of_nat (snd (mandelbrot_run MAX_ITERATION threshold c)) <= Z.max 0 MAX_ITERATION /\
  (forall fuel, (Z.to_nat MAX_ITERATION < fuel)%nat ->
     in_set_while MAX_ITERATION threshold c fuel 0 (complex_of_int 0)
       = Some (mandelbrot_run MAX_ITERATION threshold c)).
Proof.
  split; [|split].
  - unfold evaluate, mandelbrot_in_set, mandelbrot_run.
    pose proof (in_set_loop_range threshold c (Z.to_nat (MAX_ITERATION - 0)) 0
                  (complex_of_int 0)) as Hr.
    destruct (in_set_loop threshold c _ 0 _) as [r n]. simpl.
    destruct Hr as [[-> | Hr] Hn].
    + left. reflexivity.
    + right. exists r. destruct (Z.eqb_spec r (-1)); [lia|]. split; [reflexivity | lia].
  - unfold mandelbrot_run.
    pose proof (in_set_loop_range threshold c (Z.to_nat (MAX_ITERATION - 0)) 0
                  (complex_of_int 0)) as Hr.
    destruct (in_set_loop threshold c _ 0 _) as [r n]. simpl.
    destruct Hr as [_ Hn]. lia.
  - intros fuel Hfuel. unfold mandelbrot_run.
    apply in_set_while_loop. rewrite Z.sub_0_r. exact Hfuel.
Qed.

(** With the threshold 2 and three iterations, the point [2 + 0i] leaves
    at index 1, after two runs of the body. *)
Lemma evaluator_bound_witness :
  in_set_while (libm := plain_libm) 3 (B64.of_int 2) (complex_of_int 2) 4 0
               (complex_of_int 0) = Some (1, 2%nat).
Proof.
  rewrite (proj2 (proj2 (evaluator_bound binary64 plain_libm 3 (B64.of_int 2)
                           (complex_of_int 2))) 4%nat) by (simpl; lia).
  vm_compute. reflexivity.
Defined.

(** ** The palette *)

Section PaletteFacts.
Variables (start : Color.t) (red_step green_step blue_step : Z).

Lemma palette_loop_length k : forall i pal,
  length (palette_loop start red_step green_step blue_step k i pal) = length pal.
Proof.
  induction k as [|k IH]; intros i pal; simpl; [reflexivity|].
  rewrite IH. apply length_insert.
Qed.

(** Slots below the running index keep their content; the [k] slots
    from it on receive their gradient colour. *)
Lemma palette_loop_lookup k : forall i pal (j : nat),
  0 <= i -> (Z.to_nat i + k <= length pal)%nat ->
  palette_loop start red_step green_step blue_step k i pal !! j =
    if decide (Z.to_nat i <= j < Z.to_nat i + k)%nat
    then Some (palette_slot start red_step green_step blue_step (Z.of_nat j))
    else pal !! j.
Proof.
  induction k as [|k IH]; intros i pal j Hi Hlen; simpl.
  - case_decide; [lia | reflexivity].
  - rewrite IH by (rewrite ?length_insert; lia).
    replace (Z.to_nat (i + 1)) with (S (Z.to_nat i)) by lia.
    destruct (decide (j = Z.to_nat i)) as [-> | Hne].
    + rewrite list_lookup_insert_eq by lia.
      rewrite Z2Nat.id by lia.
      repeat case_decide; try lia; reflexivity.
    + rewrite list_lookup_insert_ne by congruence.
      repeat case_decide; try lia; reflexivity.
Qed.
End PaletteFacts.

Lemma u8_small (n : Z) : 0 <= n < 256 -> Color.u8 n = n.
Proof. intros Hn. unfold Color.u8. apply Z.mod_small. exact Hn. Qed.

(** With [end >= start] on a channel the sums stay within the byte. *)
Lemma channel_sum_in_byte (MAX_ITERATION s e i : Z) :
  0 < MAX_ITERATION -> 0 <= i < MAX_ITERATION -> 0 <= s <= e -> e < 256 ->
  0 <= i * channel_step MAX_ITERATION s e + s < 256.
Proof.
  intros HM Hi Hse He. unfold channel_step.
  rewrite Z.abs_eq by lia. rewrite Z.quot_div_nonneg by lia.
  assert (Hq : 0 <= (e - s) / MAX_ITERATION) by (apply Z.div_pos; lia).
  assert (Hm : MAX_ITERATION * ((e - s) / MAX_ITERATION) <= e - s)
    by (apply Z.mul_div_le; lia).
  nia.
Qed.

(** Given a block of [MAX_ITERATION + 1] slots, [create_palette start end]
    returns a table of exactly [MAX_ITERATION + 1] colours; the terminal
    slot is the zero colour; for every index [i] in [[0, MAX_ITERATION)]
    and each channel, the slot holds the byte of [start.channel + i * step],
    where [step = |end.channel - start.channel| / MAX_ITERATION] truncated;
    and the byte is [start.channel + i * step] itself on every channel
    where [0 <= start.channel <= end.channel <= 255]. *)
Lemma create_palette_table (MAX_ITERATION : Z) (mem : list Color.t)
    (start end_ : Color.t) :
  0 < MAX_ITERATION ->
  length mem = Z.to_nat (MAX_ITERATION + 1) ->
  exists p,
    create_palette MAX_ITERATION (Some mem) start end_ = Some p /\
    length p = Z.to_nat (MAX_ITERATION + 1) /\
    p !! Z.to_nat MAX_ITERATION = Some (Color.mk 0 0 0) /\
    forall i, 0 <= i < MAX_ITERATION ->
      exists col, p !! Z.to_nat i = Some col /\
        let step := fun s e => Z.quot (Z.abs (e - s)) MAX_ITERATION in
        Color.r col = (Color.r start + i * step (Color.r start) (Color.r end_)) mod 256 /\
        Color.g col = (Color.g start + i * step (Color.g start) (Color.g end_)) mod 256 /\
        Color.b col = (Color.b start + i * step (Color.b start) (Color.b end_)) mod 256 /\
        (0 <= Color.r start <= Color.r end_ -> Color.r end_ < 256 ->
         Color.r col = Color.r start + i * step (Color.r start) (Color.r end_)) /\
        (0 <= Color.g start <= Color.g end_ -> Color.g end_ < 256 ->
         Color.g col = Color.g start + i * step (Color.g start) (Color.g end_)) /\
        (0 <= Color.b start <= Color.b end_ -> Color.b end_ < 256 ->
         Color.b col = Color.b start + i * step (Color.b start) (Color.b end_)).
Proof.
  intros HM Hlen. unfold create_palette. eexists. split; [reflexivity|].
  rewrite Z.sub_0_r.
  split; [|split].
  - rewrite length_insert, palette_loop_length. exact Hlen.
  - apply list_lookup_insert_eq. rewrite palette_loop_length. lia.
  - intros i Hi. eexists. split.
    + rewrite list_lookup_insert_ne by lia.
      rewrite palette_loop_lookup by (simpl; lia).
      rewrite decide_True by (simpl; lia). reflexivity.
    + rewrite Z2Nat.id by lia. simpl.
      fold (channel_step MAX_ITERATION (Color.r start) (Color.r end_)).
      fold (channel_step MAX_ITERATION (Color.g start) (Color.g end_)).
      fold (channel_step MAX_ITERATION (Color.b start) (Color.b end_)).
      unfold Color.u8 at 1 2 3.
      repeat split; try (f_equal; lia); intros Hs He;
        rewrite u8_small by (apply channel_sum_in_byte; lia); lia.
Qed.

(** C7. For a start and an end colour whose channels are bytes with
    [start.channel <= end.channel] on every channel (what the spec asks of
    the callers, and what the one call in [graphics_init] passes), and
    given the block of [MAX_ITERATION + 1] slots, [create_palette start end]
    returns a table of exactly [MAX_ITERATION + 1] colours where, for
    every index [i] in [[0, MAX_ITERATION)], each channel of slot [i] is
    [start.channel + i * step] with
    [step = |end.channel - start.channel| / MAX_ITERATION] truncated, and
    the terminal slot [MAX_ITERATION] is the zero colour. *)
Theorem create_palette_gradient (MAX_ITERATION : Z) (mem : list Color.t)
    (start end_ : Color.t) :
  0 < MAX_ITERATION ->
  length mem = Z.to_nat (MAX_ITERATION + 1) ->
  0 <= Color.r start <= Color.r end_ -> Color.r end_ < 256 ->
  0 <= Color.g start <= Color.g end_ -> Color.g end_ < 256 ->
  0 <= Color.b start <= Color.b end_ -> Color.b end_ < 256 ->
  let step := fun s e => Z.quot (Z.abs (e - s)) MAX_ITERATION in
  exists p,
    create_palette MAX_ITERATION (Some mem) start end_ = Some p /\
    length p = Z.to_nat (MAX_ITERATION + 1) /\
    (forall i, 0 <= i < MAX_ITERATION ->
       p !! Z.to_nat i =
         Some (Color.mk (Color.r start + i * step (Color.r start) (Color.r end_))
                        (Color.g start + i * step (Color.g start) (Color.g end_))
                        (Color.b start + i * step (Color.b start) (Color.b end_)))) /\
    p !! Z.to_nat MAX_ITERATION = Some (Color.mk 0 0 0).
Proof.
  intros HM Hlen Hr Hr' Hg Hg' Hb Hb' step.
  destruct (create_palette_table MAX_ITERATION mem start end_ HM Hlen)
    as (p & Hp & Hl & Hlast & Hslots).
  exists p. split; [exact Hp|]. split; [exact Hl|]. split; [|exact Hlast].
  intros i Hi. destruct (Hslots i Hi) as (col & Hcol & Hch). cbv zeta in Hch.
  destruct Hch as (_ & _ & _ & Er & Eg & Eb).
  rewrite Hcol. f_equal. destruct col as [cr cg cb]. simpl in Er, Eg, Eb.
  rewrite (Er Hr Hr'), (Eg Hg Hg'), (Eb Hb Hb'). reflexivity.
Qed.

(** The colours of the one call, in [graphics_init], from [PALETTE_START]
    to [PALETTE_END], here with four iterations. *)
Lemma create_palette_gradient_witness :
  let start := Color.of_hexcode PALETTE_START in
  let end_ := Color.of_hexcode PALETTE_END in
  exists p,
    create_palette 4 (Some (replicate 5 (Color.mk 7 7 7))) start end_ = Some p /\
    length p = 5%nat /\
    p !! 3%nat =
      Some (Color.mk (Color.r start + 3 * Z.quot (Z.abs (Color.r end_ - Color.r start)) 4)
                     (Color.g start + 3 * Z.quot (Z.abs (Color.g end_ - Color.g start)) 4)
                     (Color.b start + 3 * Z.quot (Z.abs (Color.b end_ - Color.b start)) 4)) /\
    p !! 4%nat = Some (Color.mk 0 0 0).
Proof.
  intros start end_.
  destruct (create_palette_gradient 4 (replicate 5 (Color.mk 7 7 7)) start end_
              ltac:(lia) eq_refl
              ltac:(vm_compute; split; discriminate) eq_refl
              ltac:(vm_compute; split; discriminate) eq_refl
              ltac:(vm_compute; split; discriminate) eq_refl)
    as (p & Hp & Hl & Hslots & Hlast).
  exists p. split; [exact Hp|]. split; [exact Hl|].
  split; [exact (Hslots 3 ltac:(lia)) | exact Hlast].
Defined.

(** ** Rounding of the binary64 operations *)

(** The arithmetic of [SpecFloat] rounds an integer significand that it
    shifts right bit by bit, keeping the position of the exact value as a
    [location]. The lemmas follow the exact value through these steps. *)

Lemma inject_xO (p : positive) : (inject_Z (Zpos p~0) == 2 * inject_Z (Zpos p))%Q.
Proof. rewrite Pos2Z.inj_xO, inject_Z_mult. reflexivity. Qed.

Lemma inject_xI (p : positive) : (inject_Z (Zpos p~1) == 2 * inject_Z (Zpos p) + 1)%Q.
Proof. rewrite Pos2Z.inj_xI, inject_Z_plus, inject_Z_mult. reflexivity. Qed.

Ltac split_all :=
  repeat match goal with
         | H : _ /\ _ |- _ => destruct H
         | |- _ /\ _ => split
         end.

(** One shift to the right halves the number the record stands for. *)
Lemma shr_1_inbetween (mrs : shr_record) (x : Q) :
  0 <= shr_m mrs ->
  inbetween (shr_m mrs) x (loc_of_shr_record mrs) ->
  0 <= shr_m (shr_1 mrs) /\
  inbetween (shr_m (shr_1 mrs)) (x * (1 # 2)) (loc_of_shr_record (shr_1 mrs)).
Proof.
  destruct mrs as [m r s]. simpl shr_m. intros Hm.
  destruct m as [|p|p]; [| |lia].
  - destruct r, s; simpl; unfold inbetween; intros H; (split; [lia|]);
      change (inject_Z 0) with 0%Q in *; split_all; lra.
  - destruct p as [p|p|]; destruct r, s; simpl; unfold inbetween; intros H;
      (split; [lia|]);
      try (pose proof (inject_xI p) as HI'); try (pose proof (inject_xO p) as HO');
      change (inject_Z 0) with 0%Q in *; change (inject_Z 1) with 1%Q in *;
      split_all; lra.
Qed.

Lemma two_pow_pos (e : Z) : (0 < 2 ^ e)%Q.
Proof. apply Qpower_0_lt. reflexivity. Qed.

Lemma two_pow_plus (a b : Z) : (2 ^ (a + b) == 2 ^ a * 2 ^ b)%Q.
Proof. apply Qpower_plus. discriminate. Qed.

Lemma two_pow_le (a b : Z) : a <= b -> (2 ^ a <= 2 ^ b)%Q.
Proof.
  intros Hab. replace b with (a + (b - a)) by lia. rewrite two_pow_plus.
  assert (H1 : (1 <= 2 ^ (b - a))%Q).
  { destruct (b - a) as [|p|p] eqn:E; [discriminate | | lia].
    apply Qpower_1_le; [discriminate | lia]. }
  pose proof (two_pow_pos a). nra.
Qed.

Lemma two_pow_xO (p : positive) : (2 ^ Zpos p~0 == 2 ^ Zpos p * 2 ^ Zpos p)%Q.
Proof.
  replace (Zpos p~0) with (Zpos p + Zpos p) by lia. apply two_pow_plus.
Qed.

Lemma two_pow_xI (p : positive) : (2 ^ Zpos p~1 == 2 ^ Zpos p * 2 ^ Zpos p * 2)%Q.
Proof.
  replace (Zpos p~1) with (Zpos p + Zpos p + 1) by lia.
  rewrite two_pow_plus, two_pow_plus. reflexivity.
Qed.

(** [p] shifts divide it by [2 ^ p]. *)
Lemma iter_shr_1_inv (p : positive) : forall mrs x,
  shr_inv mrs x ->
  exists x', shr_inv (SpecFloat.iter_pos shr_1 p mrs) x' /\ (x' * 2 ^ Zpos p == x)%Q.
Proof.
  induction p as [p IH|p IH|]; intros mrs x Hinv; simpl SpecFloat.iter_pos.
  - destruct Hinv as [Hm Hin].
    destruct (shr_1_inbetween mrs x Hm Hin) as [Hm1 Hin1].
    destruct (IH _ _ (conj Hm1 Hin1)) as (x1 & H1 & E1).
    destruct (IH _ _ H1) as (x2 & H2 & E2).
    exists x2. split; [exact H2|].
    rewrite two_pow_xI. rewrite <- E2 in E1.
    transitivity (x2 * 2 ^ Z.pos p * 2 ^ Z.pos p * 2)%Q; [ring|].
    rewrite E1. field.
  - destruct (IH _ _ Hinv) as (x1 & H1 & E1).
    destruct (IH _ _ H1) as (x2 & H2 & E2).
    exists x2. split; [exact H2|].
    rewrite two_pow_xO. rewrite <- E2 in E1. rewrite <- E1. ring.
  - destruct Hinv as [Hm Hin].
    destruct (shr_1_inbetween mrs x Hm Hin) as [Hm1 Hin1].
    exists (x * (1 # 2))%Q. split; [split; assumption|].
    change (2 ^ 1)%Q with 2%Q. field.
Qed.

Lemma shr_record_of_loc_inv (m : Z) (x : Q) (l : location) :
  0 <= m -> inbetween m x l -> shr_inv (shr_record_of_loc m l) x.
Proof.
  intros Hm Hin. destruct l as [|[]]; simpl; split; simpl; assumption.
Qed.

Lemma inject_pos_nonzero (m : positive) : ~ (inject_Z (Zpos m) == 0)%Q.
Proof.
  assert (0 < inject_Z (Zpos m))%Q.
  { change 0%Q with (inject_Z 0). rewrite <- Zlt_Qlt. lia. }
  lra.
Qed.

(** The location that a division with quotient [q] and remainder [r]
    records is the position of [q + r / m2]. *)
Lemma new_location_inbetween_at (q m2 r : Z) (y : Q) :
  0 <= r < m2 -> (y == inject_Z r / inject_Z m2)%Q ->
  inbetween q (inject_Z q + y) (new_location m2 r).
Proof.
  intros Hr Hyd.
  assert (HM : (0 < inject_Z m2)%Q).
  { change 0%Q with (inject_Z 0). rewrite <- Zlt_Qlt. lia. }
  assert (HR0 : (0 <= inject_Z r)%Q).
  { change 0%Q with (inject_Z 0). rewrite <- Zle_Qle. lia. }
  assert (HRM : (inject_Z r < inject_Z m2)%Q) by (rewrite <- Zlt_Qlt; lia).
  assert (Hlt : 2 * r < m2 -> (y < 1 # 2)%Q).
  { intros L. rewrite Zlt_Qlt in L. rewrite inject_Z_mult in L.
    change (inject_Z 2) with 2%Q in L. rewrite Hyd. apply Qlt_shift_div_r; lra. }
  assert (Hgt : m2 < 2 * r -> ((1 # 2) < y)%Q).
  { intros L. rewrite Zlt_Qlt in L. rewrite inject_Z_mult in L.
    change (inject_Z 2) with 2%Q in L. rewrite Hyd. apply Qlt_shift_div_l; lra. }
  assert (Hy1 : (y < 1)%Q) by (rewrite Hyd; apply Qlt_shift_div_r; lra).
  unfold new_location.
  destruct (Z.even m2) eqn:Ev.
  - change (new_location_even m2 r)
      with (if Z.eqb r 0 then loc_Exact else loc_Inexact (Z.compare (2 * r) m2)).
    destruct (Z.eqb_spec r 0) as [E0 | Hne].
    + assert (y == 0)%Q.
      { rewrite Hyd, E0. change (inject_Z 0) with 0%Q. field. lra. }
      unfold inbetween. lra.
    + assert (Hr1 : (1 <= inject_Z r)%Q).
      { change 1%Q with (inject_Z 1). rewrite <- Zle_Qle. lia. }
      assert (Hy0 : (0 < y)%Q) by (rewrite Hyd; apply Qlt_shift_div_l; lra).
      destruct (Z.compare_spec (2 * r) m2) as [E | L | G];
        unfold inbetween.
      * assert (EM : (inject_Z m2 == 2 * inject_Z r)%Q)
          by (rewrite <- E, inject_Z_mult; reflexivity).
        assert (y == 1 # 2)%Q by (rewrite Hyd, EM; field; lra).
        repeat split; lra.
      * specialize (Hlt L). repeat split; lra.
      * specialize (Hgt G). repeat split; lra.
  - change (new_location_odd m2 r)
      with (if Z.eqb r 0 then loc_Exact
            else loc_Inexact match Z.compare (2 * r + 1) m2 with
                             | Gt => Gt
                             | _ => Lt
                             end).
    destruct (Z.eqb_spec r 0) as [E0 | Hne].
    + assert (y == 0)%Q.
      { rewrite Hyd, E0. change (inject_Z 0) with 0%Q. field. lra. }
      unfold inbetween. lra.
    + assert (Hr1 : (1 <= inject_Z r)%Q).
      { change 1%Q with (inject_Z 1). rewrite <- Zle_Qle. lia. }
      assert (Hy0 : (0 < y)%Q) by (rewrite Hyd; apply Qlt_shift_div_l; lra).
      assert (Hodd : m2 <> 2 * r).
      { intros E. rewrite E, Z.even_mul in Ev. discriminate. }
      destruct (Z.compare_spec (2 * r + 1) m2) as [E | L | G];
        unfold inbetween.
      * specialize (Hlt ltac:(lia)). repeat split; lra.
      * specialize (Hlt ltac:(lia)). repeat split; lra.
      * specialize (Hgt ltac:(lia)). repeat split; lra.
Qed.

Lemma new_location_inbetween (q m2 r : Z) :
  0 <= r < m2 ->
  inbetween q (inject_Z q + inject_Z r / inject_Z m2) (new_location m2 r).
Proof.
  intros Hr. apply new_location_inbetween_at; [exact Hr | reflexivity].
Qed.

Section RoundingFacts.
Variables prec emax : Z.

(** The shift to the target exponent keeps the number [x * 2 ^ e]. *)
Lemma shr_fexp_inv (m e : Z) (l : location) (x : Q) :
  0 <= m -> inbetween m x l ->
  exists x',
    shr_inv (fst (shr_fexp prec emax m e l)) x' /\
    e <= snd (shr_fexp prec emax m e l) /\
    (x' * 2 ^ snd (shr_fexp prec emax m e l) == x * 2 ^ e)%Q.
Proof.
  intros Hm Hin. unfold shr_fexp, shr.
  pose proof (shr_record_of_loc_inv m x l Hm Hin) as Hinv.
  destruct (fexp prec emax (Zdigits2 m + e) - e) as [|p|p] eqn:En; simpl fst; simpl snd.
  - exists x. split; [exact Hinv|]. split; [lia | reflexivity].
  - destruct (iter_shr_1_inv p _ _ Hinv) as (x' & Hinv' & E).
    exists x'. split; [exact Hinv'|]. split; [lia|].
    rewrite Z.add_comm, two_pow_plus. rewrite <- E. ring.
  - exists x. split; [exact Hinv|]. split; [lia | reflexivity].
Qed.

(** Rounding to nearest moves by at most one half. *)
Lemma round_nearest_even_near (m : Z) (l : location) (x : Q) :
  0 <= m -> inbetween m x l ->
  0 <= round_nearest_even m l /\
  (inject_Z (round_nearest_even m l) - (1 # 2) <= x)%Q /\
  (x <= inject_Z (round_nearest_even m l) + (1 # 2))%Q.
Proof.
  intros Hm Hin. destruct l as [|[]]; simpl in *.
  - split; [lia|]. lra.
  - destruct (Z.even m); [split; [lia|]; lra|].
    split; [lia|]. rewrite inject_Z_plus. change (inject_Z 1) with 1%Q. lra.
  - split; [lia|]. destruct Hin as (H1 & H2 & H3). lra.
  - split; [lia|]. rewrite inject_Z_plus. change (inject_Z 1) with 1%Q.
    destruct Hin as (H1 & H2 & H3). lra.
Qed.

Lemma inbetween_floor (m : Z) (l : location) (x : Q) :
  inbetween m x l -> (inject_Z m <= x)%Q /\ (x < inject_Z m + 1)%Q.
Proof.
  destruct l as [|c]; simpl; [intros E; lra|]. intros (H1 & H2 & _). lra.
Qed.

(** A finite result of the rounding step lies within 3/2 units of its
    last place of the exact value. *)
Lemma binary_round_aux_near (s : bool) (m e : Z) (l : location) (x : Q)
    (s' : bool) (mf : positive) (ef : Z) :
  0 <= m -> inbetween m x l ->
  binary_round_aux prec emax s m e l = S754_finite s' mf ef ->
  s' = s /\
  (inject_Z (Zpos mf) * 2 ^ ef - x * 2 ^ e <= (3 # 2) * 2 ^ ef)%Q /\
  (x * 2 ^ e - inject_Z (Zpos mf) * 2 ^ ef <= (3 # 2) * 2 ^ ef)%Q.
Proof.
  intros Hm Hin. unfold binary_round_aux.
  destruct (shr_fexp_inv m e l x Hm Hin) as (x1 & [Hm1 Hin1] & He1 & E1).
  destruct (shr_fexp prec emax m e l) as [mrs1 e1]. simpl fst in *. simpl snd in *.
  destruct (round_nearest_even_near _ _ _ Hm1 Hin1) as (Hm2 & Hlo & Hhi).
  set (m2 := round_nearest_even (shr_m mrs1) (loc_of_shr_record mrs1)) in *.
  assert (Hex : inbetween m2 (inject_Z m2) loc_Exact) by (simpl; reflexivity).
  destruct (shr_fexp_inv m2 e1 loc_Exact _ Hm2 Hex) as (x2 & [Hm3 Hin3] & He2 & E2).
  destruct (shr_fexp prec emax m2 e1 loc_Exact) as [mrs2 e2]. simpl fst in *. simpl snd in *.
  destruct (shr_m mrs2) as [|mz|mz] eqn:Emz; [discriminate| |discriminate].
  destruct (e2 <=? emax - prec); [|discriminate].
  intros [= <- <- <-]. split; [reflexivity|].
  apply inbetween_floor in Hin3. destruct Hin3 as [Hf1 Hf2].
  pose proof (two_pow_pos e1) as P1. pose proof (two_pow_pos e2) as P2.
  pose proof (two_pow_le e1 e2 He2) as P12.
  assert (A1 : (inject_Z m2 * 2 ^ e1 - (1 # 2) * 2 ^ e1 <= x * 2 ^ e)%Q).
  { rewrite <- E1. nra. }
  assert (A2 : (x * 2 ^ e <= inject_Z m2 * 2 ^ e1 + (1 # 2) * 2 ^ e1)%Q).
  { rewrite <- E1. nra. }
  assert (B1 : (inject_Z (Z.pos mz) * 2 ^ e2 <= inject_Z m2 * 2 ^ e1)%Q).
  { rewrite <- E2. nra. }
  assert (B2 : (inject_Z m2 * 2 ^ e1 <= inject_Z (Z.pos mz) * 2 ^ e2 + 2 ^ e2)%Q).
  { rewrite <- E2. nra. }
  split; lra.
Qed.

(** The integer division of the significands stands for the quotient. *)
Lemma SFdiv_core_inbetween (m1 m2 : positive) (e1 e2 : Z) :
  let '(q, e', l) := SFdiv_core_binary prec emax (Zpos m1) e1 (Zpos m2) e2 in
  0 <= q /\
  exists x, inbetween q x l /\
    (x * 2 ^ e' == inject_Z (Zpos m1) * 2 ^ e1 / (inject_Z (Zpos m2) * 2 ^ e2))%Q.
Proof.
  unfold SFdiv_core_binary.
  set (e' := Z.min (fexp prec emax (Zdigits2 (Z.pos m1) + e1 - (Zdigits2 (Z.pos m2) + e2)))
                   (e1 - e2)).
  assert (Hs : 0 <= e1 - e2 - e') by (unfold e'; lia).
  set (s := e1 - e2 - e') in *.
  set (m' := match s with Z.pos _ => Z.shiftl (Z.pos m1) s | 0 => Z.pos m1 | Z.neg _ => 0 end).
  assert (Hm' : m' = Zpos m1 * 2 ^ s).
  { unfold m'. destruct s as [|p|p] eqn:Es; [lia | | lia].
    apply Z.shiftl_mul_pow2. lia. }
  pose proof (Z_div_mod m' (Zpos m2) ltac:(lia)) as Hdm.
  destruct (Z.div_eucl m' (Z.pos m2)) as [q r]. destruct Hdm as [Hq Hr].
  assert (Hm'0 : 0 <= m') by (rewrite Hm'; apply Z.mul_nonneg_nonneg; [lia|apply Z.pow_nonneg; lia]).
  split; [nia|].
  exists (inject_Z q + inject_Z r / inject_Z (Zpos m2))%Q.
  split; [apply new_location_inbetween; exact Hr|].
  assert (HM2 : (0 < inject_Z (Zpos m2))%Q).
  { change 0%Q with (inject_Z 0). rewrite <- Zlt_Qlt. lia. }
  pose proof (two_pow_pos e2) as P2. pose proof (two_pow_pos e') as P'.
  assert (Hqr : (inject_Z (Zpos m1) * 2 ^ s ==
                 inject_Z (Zpos m2) * inject_Z q + inject_Z r)%Q).
  { rewrite <- inject_Z_mult, <- inject_Z_plus, <- Hq, Hm', inject_Z_mult.
    rewrite Zpower_Qpower by lia. reflexivity. }
  assert (He1 : (2 ^ e1 == 2 ^ s * 2 ^ e2 * 2 ^ e')%Q).
  { rewrite <- !two_pow_plus. unfold s. f_equiv. lia. }
  rewrite He1.
  transitivity ((inject_Z (Z.pos m1) * 2 ^ s) * 2 ^ e' / inject_Z (Z.pos m2))%Q.
  - rewrite Hqr. field. lra.
  - field. split; lra.
Qed.

End RoundingFacts.

Lemma B64_normal_value (s : bool) (m : positive) (e : Z) :
  B64_normal (S754_finite s m e) = true ->
  (inject_Z (2 ^ 52) * 2 ^ e <= inject_Z (Zpos m) * 2 ^ e)%Q.
Proof.
  simpl. intros H. apply Z.leb_le in H. rewrite Zle_Qle in H.
  pose proof (two_pow_pos e). nra.
Qed.

Lemma B64_normal_finite (x : spec_float) : B64_normal x = true -> B64_finite x = true.
Proof. destruct x; simpl; congruence. Qed.

Lemma B64_exact_near (res : spec_float) (exact : Q) :
  B64_finite res = true -> (B64_value res == exact)%Q -> B64_near res exact.
Proof.
  intros Hf He. split; [exact Hf|]. unfold rel_near. rewrite He.
  setoid_replace (exact - exact)%Q with 0%Q using relation Qeq by ring.
  change (Qabs 0) with 0%Q. 
  pose proof (Qabs_nonneg exact). unfold B64_DELTA.
  change (3 # 2 ^ 53)%Q with (3 # 9007199254740992)%Q. nra.
Qed.

(** A normal result of the rounding step is the exact value up to the
    relative error [B64_DELTA]. *)
Lemma binary_round_aux_rel (s : bool) (m e : Z) (l : location) (x : Q) :
  0 <= m -> inbetween m x l ->
  B64_normal (binary_round_aux 53 1024 s m e l) = true ->
  B64_near (binary_round_aux 53 1024 s m e l) (signed s (x * 2 ^ e)).
Proof.
  intros Hm Hin Hn. split; [apply B64_normal_finite; exact Hn|].
  destruct (binary_round_aux 53 1024 s m e l) as [| | |s' mf ef] eqn:E;
    try discriminate.
  pose proof (binary_round_aux_near 53 1024 s m e l x s' mf ef Hm Hin E)
    as (-> & H1 & H2).
  apply B64_normal_value in Hn.
  pose proof (two_pow_pos ef) as U.
  cbn [B64_value]. unfold rel_near, signed, B64_DELTA.
  set (V := (inject_Z (Z.pos mf) * 2 ^ ef)%Q) in *.
  set (u := (2 ^ ef)%Q) in *. set (X := (x * 2 ^ e)%Q) in *.
  clearbody V u X.
  change (inject_Z (2 ^ 52)) with (4503599627370496 # 1)%Q in *.
  change (3 # 2 ^ 53)%Q with (3 # 9007199254740992)%Q.
  destruct s.
  - setoid_replace (- V - - X)%Q with (- (V - X))%Q using relation Qeq by ring.
    rewrite !Qabs_opp. rewrite (Qabs_pos V) by lra.
    apply Qabs_Qle_condition. split; lra.
  - rewrite (Qabs_pos V) by lra.
    apply Qabs_Qle_condition. split; lra.
Qed.

Lemma B64_near_eq (res : spec_float) (a b : Q) :
  (a == b)%Q -> B64_near res a -> B64_near res b.
Proof.
  intros E [Hf H]. split; [exact Hf|]. unfold rel_near in *. rewrite <- E. exact H.
Qed.

Lemma signed_xorb (sx sy : bool) (a b : Q) :
  (signed (xorb sx sy) (a * b) == signed sx a * signed sy b)%Q.
Proof. destruct sx, sy; unfold signed; simpl; ring. Qed.

Lemma B64_value_finite (s : bool) (m : positive) (e : Z) :
  B64_value (S754_finite s m e) = signed s (inject_Z (Zpos m) * 2 ^ e).
Proof. reflexivity. Qed.

(** The four operations: a result that is normal, or exact, is the exact
    result of the operation on the numbers the operands stand for, up to
    the relative error [B64_DELTA]. *)
Lemma B64_mul_near (a b : spec_float) :
  B64_finite a = true -> B64_finite b = true ->
  B64_rounded (SFmul 53 1024 a b) (B64_value a * B64_value b) ->
  B64_near (SFmul 53 1024 a b) (B64_value a * B64_value b).
Proof.
  intros Ha Hb [Hn | [Hf He]]; [|apply B64_exact_near; assumption].
  destruct a as [sx| | |sx mx ex], b as [sy| | |sy my ey]; try discriminate.
  cbn [SFmul] in *.
  apply (B64_near_eq _ (signed (xorb sx sy)
                          (inject_Z (Zpos (mx * my)) * 2 ^ (ex + ey)))).
  - rewrite !B64_value_finite, <- signed_xorb.
    destruct (xorb sx sy); unfold signed;
      rewrite Pos2Z.inj_mul, inject_Z_mult, two_pow_plus; ring.
  - apply binary_round_aux_rel; [lia | simpl; reflexivity | exact Hn].
Qed.

Lemma signed_div (sx sy : bool) (a b : Q) :
  ~ (b == 0)%Q ->
  (signed (xorb sx sy) (a / b) == signed sx a / signed sy b)%Q.
Proof. intros Hb. destruct sx, sy; unfold signed; simpl; field; exact Hb. Qed.

Lemma B64_div_near (a b : spec_float) :
  B64_finite a = true -> B64_finite b = true ->
  B64_rounded (SFdiv 53 1024 a b) (B64_value a / B64_value b) ->
  B64_near (SFdiv 53 1024 a b) (B64_value a / B64_value b).
Proof.
  intros Ha Hb [Hn | [Hf He]]; [|apply B64_exact_near; assumption].
  destruct a as [sx| | |sx mx ex], b as [sy| | |sy my ey]; try discriminate.
  cbn [SFdiv] in *.
  pose proof (SFdiv_core_inbetween 53 1024 mx my ex ey) as Hc.
  destruct (SFdiv_core_binary 53 1024 (Z.pos mx) ex (Z.pos my) ey) as [[q e'] l].
  destruct Hc as (Hq & x & Hin & Ex).
  apply (B64_near_eq _ (signed (xorb sx sy) (x * 2 ^ e'))).
  - rewrite !B64_value_finite, <- signed_div.
    + destruct (xorb sx sy); unfold signed; rewrite Ex; reflexivity.
    + pose proof (two_pow_pos ey). pose proof (inject_pos_nonzero my).
      intros E. apply Qmult_integral in E. destruct E; [tauto | lra].
  - apply binary_round_aux_rel; [exact Hq | exact Hin | exact Hn].
Qed.

Lemma iter_xO_value (d m : positive) :
  Zpos (Pos.iter xO m d) = Zpos m * 2 ^ Zpos d.
Proof.
  induction d as [|d IH] using Pos.peano_ind.
  - simpl. lia.
  - rewrite Pos.iter_succ, Pos2Z.inj_succ, Z.pow_succ_r by lia.
    rewrite Pos2Z.inj_xO, IH. ring.
Qed.

(** Aligning two significands to the smaller exponent keeps the numbers. *)
Lemma shl_align_value (mx : positive) (ex ex' : Z) :
  (inject_Z (Zpos (fst (shl_align mx ex ex'))) * 2 ^ snd (shl_align mx ex ex')
     == inject_Z (Zpos mx) * 2 ^ ex)%Q.
Proof.
  unfold shl_align. destruct (ex' - ex) as [|d|d] eqn:E; simpl fst; simpl snd;
    try reflexivity.
  rewrite iter_xO_value, inject_Z_mult, Zpower_Qpower by lia.
  change (inject_Z 2) with 2%Q.
  replace ex with (Zpos d + ex') by lia. rewrite two_pow_plus. ring.
Qed.

Lemma shl_align_snd (mx : positive) (ex ex' : Z) :
  ex' <= ex -> snd (shl_align mx ex ex') = ex'.
Proof.
  intros H. unfold shl_align. destruct (ex' - ex) as [|d|d] eqn:E; simpl; lia.
Qed.

Lemma binary_round_rel (s : bool) (m : positive) (e : Z) :
  B64_normal (binary_round 53 1024 s m e) = true ->
  B64_near (binary_round 53 1024 s m e) (signed s (inject_Z (Zpos m) * 2 ^ e)).
Proof.
  unfold binary_round.
  pose proof (shl_align_value m e (fexp 53 1024 (Z.pos (digits2_pos m) + e))) as Hv.
  destruct (shl_align m e (fexp 53 1024 (Z.pos (digits2_pos m) + e))) as [mz ez].
  simpl fst in Hv; simpl snd in Hv. intros Hn.
  apply (B64_near_eq _ (signed s (inject_Z (Zpos mz) * 2 ^ ez))).
  - destruct s; unfold signed; rewrite Hv; reflexivity.
  - apply binary_round_aux_rel; [lia | simpl; reflexivity | exact Hn].
Qed.

Lemma binary_normalize_rel (m e : Z) :
  B64_normal (binary_normalize 53 1024 m e false) = true ->
  B64_near (binary_normalize 53 1024 m e false) (inject_Z m * 2 ^ e).
Proof.
  destruct m as [|p|p]; cbn [binary_normalize]; intros Hn.
  - discriminate.
  - apply (binary_round_rel false p e Hn).
  - apply (B64_near_eq _ (signed true (inject_Z (Zpos p) * 2 ^ e))).
    + unfold signed. change (Z.neg p) with (- Z.pos p). rewrite inject_Z_opp. ring.
    + apply (binary_round_rel true p e Hn).
Qed.

Lemma cond_Zopp_value (s : bool) (m : positive) (e : Z) :
  (inject_Z (cond_Zopp s (Zpos m)) * 2 ^ e == signed s (inject_Z (Zpos m) * 2 ^ e))%Q.
Proof.
  destruct s; unfold cond_Zopp, signed; [|reflexivity].
  rewrite inject_Z_opp. ring.
Qed.

Lemma aligned_value (s : bool) (m : positive) (e ez : Z) :
  ez <= e ->
  (inject_Z (cond_Zopp s (Zpos (fst (shl_align m e ez)))) * 2 ^ ez
     == B64_value (S754_finite s m e))%Q.
Proof.
  intros Hle. rewrite cond_Zopp_value, B64_value_finite.
  pose proof (shl_align_value m e ez) as Hv. rewrite shl_align_snd in Hv by exact Hle.
  destruct s; unfold signed; rewrite Hv; reflexivity.
Qed.

Lemma B64_add_near (a b : spec_float) :
  B64_finite a = true -> B64_finite b = true ->
  B64_rounded (SFadd 53 1024 a b) (B64_value a + B64_value b) ->
  B64_near (SFadd 53 1024 a b) (B64_value a + B64_value b).
Proof.
  intros Ha Hb [Hn | [Hf He]]; [|apply B64_exact_near; assumption].
  destruct a as [sx| | |sx mx ex], b as [sy| | |sy my ey]; try discriminate.
  - destruct sx, sy; discriminate.
  - apply B64_exact_near; [reflexivity|]. cbn [SFadd B64_value]. ring.
  - apply B64_exact_near; [reflexivity|]. cbn [SFadd B64_value]. ring.
  - cbn [SFadd] in *. cbv zeta in *.
    eapply B64_near_eq; [|apply binary_normalize_rel; exact Hn].
    rewrite inject_Z_plus, Qmult_plus_distr_l.
    rewrite !aligned_value by lia. reflexivity.
Qed.

Lemma B64_sub_near (a b : spec_float) :
  B64_finite a = true -> B64_finite b = true ->
  B64_rounded (SFsub 53 1024 a b) (B64_value a - B64_value b) ->
  B64_near (SFsub 53 1024 a b) (B64_value a - B64_value b).
Proof.
  intros Ha Hb [Hn | [Hf He]]; [|apply B64_exact_near; assumption].
  destruct a as [sx| | |sx mx ex], b as [sy| | |sy my ey]; try discriminate.
  - destruct sx, sy; discriminate.
  - apply B64_exact_near; [reflexivity|]. cbn [SFsub].
    rewrite !B64_value_finite. cbn [B64_value].
    destruct sy; unfold signed; simpl negb; cbv iota; ring.
  - apply B64_exact_near; [reflexivity|]. cbn [SFsub B64_value]. ring.
  - cbn [SFsub] in *. cbv zeta in *.
    eapply B64_near_eq; [|apply binary_normalize_rel; exact Hn].
    unfold Z.sub at 1. rewrite inject_Z_plus, inject_Z_opp.
    setoid_replace ((inject_Z (cond_Zopp sx (Zpos (fst (shl_align mx ex (Z.min ex ey)))))
                     + - inject_Z (cond_Zopp sy (Zpos (fst (shl_align my ey (Z.min ex ey))))))
                    * 2 ^ Z.min ex ey)%Q
      with (inject_Z (cond_Zopp sx (Zpos (fst (shl_align mx ex (Z.min ex ey))))) * 2 ^ Z.min ex ey
            - inject_Z (cond_Zopp sy (Zpos (fst (shl_align my ey (Z.min ex ey))))) * 2 ^ Z.min ex ey)%Q
      using relation Qeq by ring.
    rewrite !aligned_value by lia. reflexivity.
Qed.

Lemma digits2_pos_iter_xO (d m : positive) :
  digits2_pos (Pos.iter xO m d) = (digits2_pos m + d)%positive.
Proof.
  induction d as [|d IH] using Pos.peano_ind.
  - simpl. lia.
  - rewrite Pos.iter_succ. cbn [digits2_pos]. rewrite IH. lia.
Qed.

Lemma digits2_pos_lower (m : positive) :
  2 ^ (Zpos (digits2_pos m) - 1) <= Zpos m.
Proof.
  induction m as [m IH|m IH|]; cbn [digits2_pos].
  - rewrite Pos2Z.inj_succ. replace (Z.succ (Zpos (digits2_pos m)) - 1)
      with (Z.succ (Zpos (digits2_pos m) - 1)) by lia.
    rewrite Z.pow_succ_r by lia. lia.
  - rewrite Pos2Z.inj_succ. replace (Z.succ (Zpos (digits2_pos m)) - 1)
      with (Z.succ (Zpos (digits2_pos m) - 1)) by lia.
    rewrite Z.pow_succ_r by lia. lia.
  - simpl. lia.
Qed.

Lemma digits2_pos_upper (m : positive) :
  Zpos m < 2 ^ Zpos (digits2_pos m).
Proof.
  induction m as [m IH|m IH|]; cbn [digits2_pos].
  - rewrite Pos2Z.inj_succ, Z.pow_succ_r by lia. lia.
  - rewrite Pos2Z.inj_succ, Z.pow_succ_r by lia. lia.
  - simpl. lia.
Qed.

(** A significand that is already at its exponent is returned as it is. *)
Lemma binary_round_aux_noshift (s : bool) (m : positive) (e : Z) :
  fexp 53 1024 (Zpos (digits2_pos m) + e) <= e -> e <= 971 ->
  binary_round_aux 53 1024 s (Zpos m) e loc_Exact = S754_finite s m e.
Proof.
  intros Hf He. unfold binary_round_aux.
  assert (Hs : shr_fexp 53 1024 (Zpos m) e loc_Exact
                 = (shr_record_of_loc (Zpos m) loc_Exact, e)).
  { unfold shr_fexp, shr. cbn [Zdigits2].
    destruct (fexp 53 1024 (Z.pos (digits2_pos m) + e) - e) eqn:E; try reflexivity. lia. }
  rewrite Hs. cbn [shr_record_of_loc shr_m loc_of_shr_record round_nearest_even].
  rewrite Hs. cbn [shr_record_of_loc shr_m].
  destruct (Z.leb_spec e (1024 - 53)); [reflexivity | lia].
Qed.

(** The conversion of a positive [int] is exact: [n] has at most 53 bits. *)
Lemma B64_of_int_exact (n : Z) :
  0 < n < 2 ^ 53 ->
  exists m e, binary_normalize 53 1024 n 0 false = S754_finite false m e /\
    (inject_Z (Zpos m) * 2 ^ e == inject_Z n)%Q.
Proof.
  intros Hn. destruct n as [|p|p]; try lia. cbn [binary_normalize].
  unfold binary_round.
  pose proof (digits2_pos_lower p) as Hlo. pose proof (digits2_pos_upper p) as Hup.
  assert (Hd : Zpos (digits2_pos p) <= 53).
  { destruct (Z.le_gt_cases (Zpos (digits2_pos p)) 53) as [H|H]; [exact H|].
    assert (2 ^ 53 <= 2 ^ (Zpos (digits2_pos p) - 1)) by (apply Z.pow_le_mono_r; lia).
    lia. }
  assert (Hfe : fexp 53 1024 (Zpos (digits2_pos p) + 0) = Zpos (digits2_pos p) - 53).
  { unfold fexp, emin. lia. }
  rewrite Hfe.
  pose proof (shl_align_value p 0 (Zpos (digits2_pos p) - 53)) as Hv.
  assert (Hdig : Zpos (digits2_pos (fst (shl_align p 0 (Zpos (digits2_pos p) - 53))))
                 + snd (shl_align p 0 (Zpos (digits2_pos p) - 53))
                 = Zpos (digits2_pos p)).
  { unfold shl_align. destruct (Zpos (digits2_pos p) - 53 - 0) as [|d|d] eqn:E;
      cbn [fst snd]; try lia.
    rewrite digits2_pos_iter_xO. lia. }
  assert (Hsnd : snd (shl_align p 0 (Zpos (digits2_pos p) - 53))
                 = Zpos (digits2_pos p) - 53) by (apply shl_align_snd; lia).
  destruct (shl_align p 0 (Zpos (digits2_pos p) - 53)) as [mz ez].
  cbn [fst snd] in *.
  exists mz, ez. split.
  - apply binary_round_aux_noshift; [|lia].
    rewrite Hdig. unfold fexp, emin. lia.
  - rewrite Hv. change (2 ^ 0)%Q with 1%Q. ring.
Qed.

Lemma B64_positive_value (x : spec_float) :
  B64_positive x = true -> (0 < B64_value x)%Q.
Proof.
  destruct x as [| | |[] m e]; try discriminate. intros _. cbn [B64_value].
  pose proof (two_pow_pos e).
  assert (0 < inject_Z (Zpos m))%Q.
  { change 0%Q with (inject_Z 0). rewrite <- Zlt_Qlt. lia. }
  nra.
Qed.

(** *** The sign of a rounded result *)

Lemma inbetween_exists (m : Z) (l : location) : exists x, inbetween m x l.
Proof.
  destruct l as [|[]]; unfold inbetween.
  - exists (inject_Z m). reflexivity.
  - exists (inject_Z m + (1 # 2))%Q. repeat split; lra.
  - exists (inject_Z m + (1 # 4))%Q. repeat split; lra.
  - exists (inject_Z m + (3 # 4))%Q. repeat split; lra.
Qed.

(** Rounding a non-negative significand returns a zero, a finite number
    or an infinity of the given sign, never NaN. *)
Lemma binary_round_aux_sign (prec emax : Z) (s : bool) (m e : Z) (l : location) :
  0 <= m ->
  match binary_round_aux prec emax s m e l with
  | S754_zero s' | S754_infinity s' | S754_finite s' _ _ => s' = s
  | S754_nan => False
  end.
Proof.
  intros Hm. destruct (inbetween_exists m l) as [x Hin].
  unfold binary_round_aux.
  destruct (shr_fexp_inv prec emax m e l x Hm Hin) as (x1 & [Hm1 Hin1] & _ & _).
  destruct (shr_fexp prec emax m e l) as [mrs1 e1]. simpl fst in *.
  destruct (round_nearest_even_near _ _ _ Hm1 Hin1) as (Hm2 & _).
  set (m2 := round_nearest_even (shr_m mrs1) (loc_of_shr_record mrs1)) in *.
  assert (Hex : inbetween m2 (inject_Z m2) loc_Exact) by (simpl; reflexivity).
  destruct (shr_fexp_inv prec emax m2 e1 loc_Exact _ Hm2 Hex) as (x2 & [Hm3 _] & _ & _).
  destruct (shr_fexp prec emax m2 e1 loc_Exact) as [mrs2 e2]. simpl fst in *.
  destruct (shr_m mrs2) as [|mz|mz]; [reflexivity | | lia].
  destruct (e2 <=? emax - prec); reflexivity.
Qed.

Lemma B64_nonneg_div (x r : spec_float) :
  B64_nonneg x = true -> B64_positive r = true -> B64_nonneg (B64.div x r) = true.
Proof.
  intros Hx Hr.
  destruct r as [| | |[] mr er]; try discriminate.
  destruct x as [[]|[]| |[] mx ex]; try discriminate; try reflexivity.
  unfold B64.div. cbn [SFdiv xorb].
  pose proof (SFdiv_core_inbetween B64.prec B64.emax mx mr ex er) as Hc.
  destruct (SFdiv_core_binary B64.prec B64.emax (Z.pos mx) ex (Z.pos mr) er)
    as [[q e'] l].
  destruct Hc as (Hq & _).
  pose proof (binary_round_aux_sign B64.prec B64.emax false q e' l Hq) as Hs.
  destruct (binary_round_aux B64.prec B64.emax false q e' l) as [s|s| |s m e];
    try (rewrite Hs; reflexivity). destruct Hs.
Qed.

Lemma B64_nonneg_mul (x r : spec_float) :
  B64_nonneg x = true -> B64_positive r = true -> B64_nonneg (B64.mul x r) = true.
Proof.
  intros Hx Hr.
  destruct r as [| | |[] mr er]; try discriminate.
  destruct x as [[]|[]| |[] mx ex]; try discriminate; try reflexivity.
  unfold B64.mul. cbn [SFmul xorb].
  pose proof (binary_round_aux_sign B64.prec B64.emax false
                (Z.pos (mx * mr)) (ex + er) loc_Exact ltac:(lia)) as Hs.
  destruct (binary_round_aux B64.prec B64.emax false (Z.pos (mx * mr)) (ex + er) loc_Exact)
    as [s|s| |s m e]; try (rewrite Hs; reflexivity). destruct Hs.
Qed.

Lemma B64_nonneg_normal (x : spec_float) :
  B64_nonneg x = true -> B64_normal x = true -> B64_positive x = true.
Proof. destruct x as [| | |[] m e]; simpl; congruence. Qed.

Lemma B64_positive_nonneg (x : spec_float) :
  B64_positive x = true -> B64_nonneg x = true.
Proof. destruct x as [| | |[] m e]; simpl; congruence. Qed.

(** *** Error propagation *)

(** Error propagation on the rationals. With [|v| <= A], a relative
    error [B64_DELTA] of the result is an absolute error of at most
    [3 / (2^53 - 3) * A]. *)
Lemma rel_near_within (v' v A : Q) :
  rel_near v' v -> (- A <= v)%Q -> (v <= A)%Q ->
  (- ((3 # 9007199254740989) * A) <= v' - v)%Q /\
  (v' - v <= (3 # 9007199254740989) * A)%Q.
Proof.
  unfold rel_near, B64_DELTA. change (3 # 2 ^ 53)%Q with (3 # 9007199254740992)%Q.
  intros H Hl Hu. apply Qabs_Qle_condition in H. destruct H as [H1 H2].
  revert H1 H2. apply (Qabs_case v'); intros Hs H1 H2; split; lra.
Qed.

Lemma rel_near_scaled (v' v k : Q) :
  (0 < k)%Q -> rel_near v' (k * v) -> rel_near (v' / k) v.
Proof.
  unfold rel_near. intros Hk H.
  assert (Hik : (0 < / k)%Q) by (apply Qinv_lt_0_compat; exact Hk).
  setoid_replace (v' / k - v)%Q with ((v' - k * v) * / k)%Q using relation Qeq by (field; lra).
  unfold Qdiv. rewrite !Qabs_Qmult. rewrite (Qabs_pos (/ k)) by lra.
  rewrite Qmult_assoc. apply Qmult_le_compat_r; lra.
Qed.

(** The seven roundings of the mapping of the middle column: with
    [h ~ r / 2], [lo ~ c - h], [hi ~ c + h], [d ~ hi - lo], [p ~ n * d],
    [q ~ p / (2 * n)] and [c' ~ lo + q], the result [c'] is within
    [RECENTER_TOLERANCE * (|c| + r)] of [c]. *)
Lemma recenter_chain (c r h lo hi d p q c' n : Q) :
  (0 < r)%Q -> (0 < n)%Q ->
  rel_near h (r * (1 # 2)) -> rel_near lo (c - h) -> rel_near hi (c + h) ->
  rel_near d (hi - lo) -> rel_near p (n * d) -> rel_near q (p / (2 * n)) ->
  rel_near c' (lo + q) ->
  (Qabs (c' - c) <= RECENTER_TOLERANCE * (Qabs c + r))%Q.
Proof.
  intros Hr Hn Nh Nlo Nhi Nd Np Nq Nc.
  apply rel_near_scaled in Np; [|exact Hn].
  assert (Nq' : rel_near q (p / n * (1 # 2))).
  { unfold rel_near in *.
    setoid_replace (p / n * (1 # 2))%Q with (p / (2 * n))%Q using relation Qeq by (field; lra).
    exact Nq. }
  clear Nq. set (pp := (p / n)%Q) in *. clearbody pp. clear p.
  pose proof (Qabs_nonneg c) as Hca.
  assert (Hc1 : (- Qabs c <= c)%Q).
  { pose proof (Qle_Qabs (- c)) as H. rewrite Qabs_opp in H. lra. }
  pose proof (Qle_Qabs c) as Hc2.
  set (ca := Qabs c) in *. clearbody ca.
  set (B := (ca + r)%Q).
  assert (HB : (B == ca + r)%Q) by reflexivity. clearbody B.
  pose proof (rel_near_within h (r * (1 # 2)) (r * (1 # 2)) Nh ltac:(lra) ltac:(lra)) as [Hh1 Hh2].
  pose proof (rel_near_within lo (c - h) B Nlo ltac:(lra) ltac:(lra)) as [Hlo1 Hlo2].
  pose proof (rel_near_within hi (c + h) B Nhi ltac:(lra) ltac:(lra)) as [Hhi1 Hhi2].
  pose proof (rel_near_within d (hi - lo) ((101 # 100) * B) Nd ltac:(lra) ltac:(lra))
    as [Hd1 Hd2].
  pose proof (rel_near_within pp d ((102 # 100) * B) Np ltac:(lra) ltac:(lra))
    as [Hp1 Hp2].
  pose proof (rel_near_within q (pp * (1 # 2)) ((52 # 100) * B) Nq' ltac:(lra) ltac:(lra))
    as [Hq1 Hq2].
  pose proof (rel_near_within c' (lo + q) ((101 # 100) * B) Nc ltac:(lra) ltac:(lra))
    as [Hc'1 Hc'2].
  unfold RECENTER_TOLERANCE. change (1 # 2 ^ 49)%Q with (1 # 562949953421312)%Q.
  apply Qabs_Qle_condition. split; lra.
Qed.

Lemma rel_near_mult (v' v k : Q) :
  (0 < k)%Q -> rel_near v' v -> rel_near (v' * k) (v * k).
Proof.
  unfold rel_near. intros Hk H.
  setoid_replace (v' * k - v * k)%Q with ((v' - v) * k)%Q using relation Qeq by ring.
  rewrite !Qabs_Qmult, (Qabs_pos k) by lra.
  rewrite Qmult_assoc. apply Qmult_le_compat_r; lra.
Qed.

Lemma B64_positive_finite (x : spec_float) :
  B64_positive x = true -> B64_finite x = true.
Proof. destruct x as [| | |[] m e]; simpl; congruence. Qed.

(** A positive integer below 2^53 converts to the double that stands
    for it, and subtracting the double 0 returns it as it is. *)
Lemma B64_of_int_value (n : Z) :
  0 < n < 2 ^ 53 ->
  B64_finite (B64.of_int n) = true /\
  (B64_value (B64.of_int n) == inject_Z n)%Q /\
  B64.sub (B64.of_int n) (B64.of_int 0) = B64.of_int n.
Proof.
  intros Hn. destruct (B64_of_int_exact n Hn) as (m & e & E & Ev).
  unfold B64.of_int, B64.prec, B64.emax. rewrite E.
  split; [reflexivity|]. split; [exact Ev | reflexivity].
Qed.

(** Dividing by a positive number and multiplying by it again, with a
    normal quotient and a normal product, gives the number back up to
    the relative error [ZOOM_TOLERANCE]. *)
Lemma div_mul_round_trip (x r : spec_float) :
  B64_positive x = true -> B64_positive r = true ->
  B64_normal (B64.div x r) = true ->
  B64_normal (B64.mul (B64.div x r) r) = true ->
  B64_positive (B64.mul (B64.div x r) r) = true /\
  (Qabs (B64_value (B64.mul (B64.div x r) r) - B64_value x)
     <= ZOOM_TOLERANCE * B64_value x)%Q.
Proof.
  intros Hx Hr Hq Hp. split.
  { apply B64_nonneg_normal; [|exact Hp].
    apply B64_nonneg_mul; [|exact Hr].
    apply B64_nonneg_div; [|exact Hr].
    apply B64_positive_nonneg. exact Hx. }
  pose proof (B64_positive_value x Hx) as HX.
  pose proof (B64_positive_value r Hr) as HR.
  destruct (B64_div_near x r (B64_positive_finite x Hx) (B64_positive_finite r Hr)
              (or_introl Hq)) as [Fq Nq].
  destruct (B64_mul_near (B64.div x r) r Fq (B64_positive_finite r Hr)
              (or_introl Hp)) as [_ Np].
  change (SFdiv 53 1024 x r) with (B64.div x r) in *.
  change (SFmul 53 1024 (B64.div x r) r) with (B64.mul (B64.div x r) r) in *.
  apply (rel_near_mult _ _ (B64_value r) HR) in Nq.
  assert (E : (B64_value x / B64_value r * B64_value r == B64_value x)%Q)
    by (field; lra).
  unfold rel_near in Nq. rewrite E in Nq. fold (rel_near (B64_value (B64.div x r) * B64_value r) (B64_value x)) in Nq.
  set (X := B64_value x) in *. set (Y := (B64_value (B64.div x r) * B64_value r)%Q) in *.
  set (P := B64_value (B64.mul (B64.div x r) r)) in *.
  clearbody X Y P.
  pose proof (rel_near_within Y X X Nq ltac:(lra) ltac:(lra)) as [HY1 HY2].
  pose proof (rel_near_within P Y ((101 # 100) * X) Np ltac:(lra) ltac:(lra)) as [HP1 HP2].
  unfold ZOOM_TOLERANCE. change (1 # 2 ^ 50)%Q with (1 # 1125899906842624)%Q.
  apply Qabs_Qle_condition. split; lra.
Qed.

(** ** The viewport *)

Section ViewportFacts.
Context {D : Type} {ops : DoubleOps D}.

(** What [recenter] leaves in the state: both coordinates are mapped
    over [[0, window_w)], from the bounds before the call. *)
Lemma recenter_fields (state : GState D) (x y : Z) :
  center (recenter state x y) =
    Point.mk (map_range (dof_int x) (dof_int 0) (dof_int (window_w state))
                        (REAL_LO state) (REAL_HI state))
             (map_range (dof_int y) (dof_int 0) (dof_int (window_w state))
                        (IMAG_LO state) (IMAG_HI state)) /\
  real_range (recenter state x y) = real_range state /\
  imag_range (recenter state x y) = imag_range state /\
  window_w (recenter state x y) = window_w state /\
  window_h (recenter state x y) = window_h state.
Proof. repeat split. Qed.

Lemma changed_handle_event (state : GState D) (e : SDL_Event) :
  changed (handle_event state e) = true.
Proof. reflexivity. Qed.

(** Every polled event marks the state, whatever it is. *)
Lemma changed_event_handler (queue : list SDL_Event) : forall state : GState D,
  changed (event_handler state queue) = (changed state || negb (bool_decide (queue = []))).
Proof.
  unfold event_handler.
  induction queue as [|e queue IH]; intros state; simpl.
  - rewrite orb_false_r. reflexivity.
  - rewrite IH. rewrite changed_handle_event, orb_true_r. reflexivity.
Qed.
End ViewportFacts.

(** C3. [recenter] maps [x] over [[0, window_w)] onto the real bounds and
    leaves both ranges alone, but it maps [y] over [[0, window_w)] too,
    not over [[0, window_h)]. In a 200 x 100 window centred at the origin
    with both ranges 2, the pixel (100, 50) is the middle pixel; the
    mapping over the height sends [y = 50] to 0, and the code sets
    [center.y] to -1/2. *)
Theorem recenter_maps_y_over_width :
  (forall (state : GState spec_float) (x y : Z),
     Point.x (center (recenter state x y)) =
       map_range (dof_int x) (dof_int 0) (dof_int (window_w state))
                 (REAL_LO state) (REAL_HI state) /\
     Point.y (center (recenter state x y)) =
       map_range (dof_int y) (dof_int 0) (dof_int (window_w state))
                 (IMAG_LO state) (IMAG_HI state) /\
     real_range (recenter state x y) = real_range state /\
     imag_range (recenter state x y) = imag_range state) /\
  (let state := sample_state 200 100 (B64.of_int 0) (B64.of_int 0)
                             (B64.of_int 2) (B64.of_int 2) in
   Point.y (center (recenter state 100 50)) = b64_ratio (-1) 2 /\
   map_range (dof_int 50) (dof_int 0) (dof_int (window_h state))
             (IMAG_LO state) (IMAG_HI state) = S754_zero false /\
   Point.y (center (recenter state 100 50)) <>
     map_range (dof_int 50) (dof_int 0) (dof_int (window_h state))
               (IMAG_LO state) (IMAG_HI state)).
Proof.
  split.
  - intros state x y. repeat split.
  - vm_compute. repeat split. discriminate.
Qed.

(** The middle pixel does not always map back to the centre: in a 3 x 3
    window (centre 0, ranges 3) the pixel (3/2, 3/2) = (1, 1) maps to
    -1/2; and in a 2 x 2 window with centre 1/3 and ranges 3 the pixel
    (1, 1) maps to the binary64 neighbour of the centre. *)
Lemma recenter_middle_moves_center :
  (let state := sample_state 3 3 (B64.of_int 0) (B64.of_int 0)
                             (B64.of_int 3) (B64.of_int 3) in
   Point.x (center (recenter state (Z.quot 3 2) (Z.quot 3 2))) = b64_ratio (-1) 2 /\
   Point.x (center (recenter state (Z.quot 3 2) (Z.quot 3 2))) <> Point.x (center state)) /\
  (let state := sample_state 2 2 (b64_ratio 1 3) (b64_ratio 1 3)
                             (B64.of_int 3) (B64.of_int 3) in
   Point.x (center (recenter state (Z.quot 2 2) (Z.quot 2 2))) <> Point.x (center state)).
Proof. vm_compute. repeat split; discriminate. Qed.

(** C4, as the code has it. At binary64, in a window of even positive
    width, with a finite centre and a positive finite range, and whenever
    each double operation of the mapping returns a normal number or its
    exact result (none overflows, none is rounded in the subnormal
    range), recentering at the column [window_w / 2] leaves [center.x]
    within [2^-49 * (|center.x| + real_range)] of where it was, whatever
    the row, and leaves both ranges unchanged. *)
Theorem recenter_x_middle_tolerance (state : GState spec_float) (y : Z) :
  0 < window_w state < 2 ^ 31 ->
  Z.even (window_w state) = true ->
  B64_finite (Point.x (center state)) = true ->
  B64_positive (real_range state) = true ->
  recenter_x_rounded state (Z.quot (window_w state) 2) ->
  let state' := recenter state (Z.quot (window_w state) 2) y in
  B64_finite (Point.x (center state')) = true /\
  (Qabs (B64_value (Point.x (center state')) - B64_value (Point.x (center state)))
     <= RECENTER_TOLERANCE *
        (Qabs (B64_value (Point.x (center state))) + B64_value (real_range state)))%Q /\
  real_range state' = real_range state /\
  imag_range state' = imag_range state.
Proof.
  intros Hw Hev Hcx Hrr Hok. cbv zeta.
  apply Z.even_spec in Hev. destruct Hev as [k Hk].
  assert (Hq : Z.quot (window_w state) 2 = k).
  { rewrite Hk. rewrite Z.mul_comm. apply Z.quot_mul. lia. }
  rewrite Hq in *.
  destruct (B64_of_int_value k ltac:(lia)) as (Fk & Vk & Sk).
  destruct (B64_of_int_value (window_w state) ltac:(lia)) as (Fw & Vw & Sw).
  destruct (B64_of_int_value 2 ltac:(lia)) as (F2 & V2 & _).
  pose proof (B64_positive_finite _ Hrr) as Frr.
  pose proof (B64_positive_value _ Hrr) as Prr.
  unfold recenter_x_rounded in Hok. cbv zeta in Hok.
  cbn [recenter recenter_x recenter_y set_center_x set_center_y set_center center
       Point.x Point.y window_w real_range imag_range].
  unfold map_range.
  unfold REAL_LO, REAL_HI in *.
  change (@dsub _ binary64) with B64.sub in *.
  change (@dadd _ binary64) with B64.add in *.
  change (@dmul _ binary64) with B64.mul in *.
  change (@ddiv _ binary64) with B64.div in *.
  change (@dof_int _ binary64) with B64.of_int in *.
  rewrite Sk, Sw in *.
  destruct Hok as (R1 & R2 & R3 & R4 & R5 & R6 & R7).
  set (cx := Point.x (center state)) in *.
  set (half := B64.div (real_range state) (B64.of_int 2)) in *.
  set (lo := B64.sub cx half) in *.
  set (hi := B64.add cx half) in *.
  set (span := B64.sub hi lo) in *.
  set (prod := B64.mul (B64.of_int k) span) in *.
  set (quot := B64.div prod (B64.of_int (window_w state))) in *.
  destruct (B64_div_near _ _ Frr F2 R1) as [Fh Nh]. fold half in Fh, Nh.
  destruct (B64_sub_near _ _ Hcx Fh R2) as [Flo Nlo]. fold lo in Flo, Nlo.
  destruct (B64_add_near _ _ Hcx Fh R3) as [Fhi Nhi]. fold hi in Fhi, Nhi.
  destruct (B64_sub_near _ _ Fhi Flo R4) as [Fsp Nsp]. fold span in Fsp, Nsp.
  destruct (B64_mul_near _ _ Fk Fsp R5) as [Fpr Npr]. fold prod in Fpr, Npr.
  destruct (B64_div_near _ _ Fpr Fw R6) as [Fqu Nqu]. fold quot in Fqu, Nqu.
  destruct (B64_add_near _ _ Flo Fqu R7) as [Fc Nc].
  split; [exact Fc|]. split; [|split; reflexivity].
  assert (Hk0 : (0 < inject_Z k)%Q).
  { change 0%Q with (inject_Z 0). rewrite <- Zlt_Qlt. lia. }
  assert (Vw' : (B64_value (B64.of_int (window_w state)) == 2 * inject_Z k)%Q).
  { rewrite Vw, Hk, inject_Z_mult. reflexivity. }
  apply (recenter_chain (B64_value cx) (B64_value (real_range state))
           (B64_value half) (B64_value lo) (B64_value hi) (B64_value span)
           (B64_value prod) (B64_value quot) _ (inject_Z k));
    try assumption; unfold rel_near in *.
  - rewrite V2 in Nh. change (inject_Z 2) with 2%Q in Nh.
    setoid_replace (B64_value (real_range state) * (1 # 2))%Q
      with (B64_value (real_range state) / 2)%Q using relation Qeq by field.
    exact Nh.
  - rewrite Vk in Npr. exact Npr.
  - rewrite Vw' in Nqu. exact Nqu.
Qed.

(** The 2 x 2 window with centre 1/3 and ranges 3, where the middle
    pixel maps to the neighbour of the centre: the operations round, and
    the centre stays within the tolerance. *)
Lemma recenter_x_middle_tolerance_witness :
  let state := sample_state 2 2 (b64_ratio 1 3) (b64_ratio 1 3)
                            (B64.of_int 3) (B64.of_int 3) in
  let state' := recenter state (Z.quot (window_w state) 2) 1 in
  B64_finite (Point.x (center state')) = true /\
  (Qabs (B64_value (Point.x (center state')) - B64_value (Point.x (center state)))
     <= RECENTER_TOLERANCE *
        (Qabs (B64_value (Point.x (center state))) + B64_value (real_range state)))%Q /\
  real_range state' = real_range state /\
  imag_range state' = imag_range state.
Proof.
  apply (recenter_x_middle_tolerance
           (sample_state 2 2 (b64_ratio 1 3) (b64_ratio 1 3)
                         (B64.of_int 3) (B64.of_int 3)) 1).
  - simpl. lia.
  - reflexivity.
  - reflexivity.
  - reflexivity.
  - repeat split; left; vm_compute; reflexivity.
Defined.

(** At binary64, in the 100 x 100 window of the spec's scenario (centre
    -1/2 + 0i, ranges 3) the middle pixel does map back to the centre. *)
Example recenter_middle_scenario :
  let state := sample_state 100 100 (b64_ratio (-1) 2) (B64.of_int 0)
                            (B64.of_int 3) (B64.of_int 3) in
  center (recenter state (Z.quot 100 2) (Z.quot 100 2)) = center state.
Proof. vm_compute. reflexivity. Qed.

(** A quit request marks the state too: from a clean state, after the
    handler has seen [SDL_QUIT], [changed] is set. *)
Lemma quit_marks_changed :
  let state := sample_state 100 100 (B64.of_int 0) (B64.of_int 0)
                            (B64.of_int 3) (B64.of_int 3) in
  changed state = false /\
  changed (event_handler state [SDL_QUIT]) = true /\
  changed (event_handler state [SDL_KEYDOWN SDLK_q]) = true.
Proof. repeat split. Qed.

(** C5, as the code has it. A quit event (the window's close request or
    the [q] key) sets [running] to false and leaves the centre and both
    ranges unchanged, and it sets [changed], as every polled event does,
    whether or not the handler has a case for it. *)
Theorem quit_event_effect {D : Type} (ops : DoubleOps D) (state : GState D) :
  running (event_handler state [SDL_QUIT]) = false /\
  running (event_handler state [SDL_KEYDOWN SDLK_q]) = false /\
  center (event_handler state [SDL_QUIT]) = center state /\
  real_range (event_handler state [SDL_QUIT]) = real_range state /\
  imag_range (event_handler state [SDL_QUIT]) = imag_range state /\
  center (event_handler state [SDL_KEYDOWN SDLK_q]) = center state /\
  real_range (event_handler state [SDL_KEYDOWN SDLK_q]) = real_range state /\
  imag_range (event_handler state [SDL_KEYDOWN SDLK_q]) = imag_range state /\
  changed (event_handler state [SDL_QUIT]) = true /\
  (forall e, changed (event_handler state [e]) = true).
Proof. repeat split. Qed.

(** Zooming in and back out by 1/2 from a range of 2^1023: the quotient
    overflows, and both ranges end at infinity. And with the default ratio,
    from the range 5 * 2^-1074 the round trip ends at 6 * 2^-1074. *)
Lemma zoom_round_trip_fails :
  (let r := b64_ratio 1 2 in
   let state := sample_state 100 100 (B64.of_int 0) (B64.of_int 0) b64_huge b64_huge in
   dgt r (dof_int 0) = true /\
   real_range (zoom_out (zoom_in state r) r) = S754_infinity false /\
   imag_range (zoom_out (zoom_in state r) r) = S754_infinity false /\
   real_range (zoom_out (zoom_in state r) r) <> real_range state) /\
  (let state := sample_state 100 100 (B64.of_int 0) (B64.of_int 0)
                             (S754_finite false 5 (-1074)) (S754_finite false 5 (-1074)) in
   dgt ZOOM_RATIO (dof_int 0) = true /\
   real_range (zoom_out (zoom_in state ZOOM_RATIO) ZOOM_RATIO)
     = S754_finite false 6 (-1074)).
Proof. vm_compute. repeat split. discriminate. Qed.

(** C10, as the code has it. At binary64, for every positive finite
    ratio [r] and positive finite ranges, whenever the two quotients and
    the two products are normal numbers (none overflows and none falls
    into the subnormal range), [zoom_in r] followed by [zoom_out r] gives
    each range back as a positive finite number within the relative
    tolerance [2^-50] of the range before, and the centre is untouched. *)
Theorem zoom_in_out_tolerance (state : GState spec_float) (r : spec_float) :
  B64_positive r = true ->
  B64_positive (real_range state) = true ->
  B64_positive (imag_range state) = true ->
  B64_normal (ddiv (real_range state) r) = true ->
  B64_normal (dmul (ddiv (real_range state) r) r) = true ->
  B64_normal (ddiv (imag_range state) r) = true ->
  B64_normal (dmul (ddiv (imag_range state) r) r) = true ->
  let state' := zoom_out (zoom_in state r) r in
  B64_positive (real_range state') = true /\
  (Qabs (B64_value (real_range state') - B64_value (real_range state))
     <= ZOOM_TOLERANCE * B64_value (real_range state))%Q /\
  B64_positive (imag_range state') = true /\
  (Qabs (B64_value (imag_range state') - B64_value (imag_range state))
     <= ZOOM_TOLERANCE * B64_value (imag_range state))%Q /\
  center state' = center state.
Proof.
  intros Hr Hre Him Hq1 Hp1 Hq2 Hp2.
  cbn [zoom_in zoom_out set_real_range set_imag_range real_range imag_range center].
  destruct (div_mul_round_trip (real_range state) r Hre Hr Hq1 Hp1) as [Pre Tre].
  destruct (div_mul_round_trip (imag_range state) r Him Hr Hq2 Hp2) as [Pim Tim].
  repeat split; assumption.
Qed.

(** With the default ratio: a real range of 29, which does not come back
    bit for bit, and an imaginary range of 3, which does. *)
Lemma zoom_in_out_tolerance_witness :
  let state := sample_state 100 100 (b64_ratio (-1) 2) (B64.of_int 0)
                            (B64.of_int 29) (B64.of_int 3) in
  let state' := zoom_out (zoom_in state ZOOM_RATIO) ZOOM_RATIO in
  B64_positive (real_range state') = true /\
  (Qabs (B64_value (real_range state') - B64_value (real_range state))
     <= ZOOM_TOLERANCE * B64_value (real_range state))%Q /\
  B64_positive (imag_range state') = true /\
  (Qabs (B64_value (imag_range state') - B64_value (imag_range state))
     <= ZOOM_TOLERANCE * B64_value (imag_range state))%Q /\
  center state' = center state.
Proof.
  apply (zoom_in_out_tolerance
           (sample_state 100 100 (b64_ratio (-1) 2) (B64.of_int 0)
                         (B64.of_int 29) (B64.of_int 3)) ZOOM_RATIO);
    vm_compute; reflexivity.
Defined.

(** At ordinary magnitudes the round trip is not always exact: with the
    default ratio a range of 29 comes back as its neighbour below or
    above, one unit in the last place away. *)
Example zoom_round_trip_one_ulp :
  let state := sample_state 100 100 (B64.of_int 0) (B64.of_int 0)
                            (B64.of_int 29) (B64.of_int 29) in
  real_range state = S754_finite false 8162774324609024 (-48) /\
  real_range (zoom_out (zoom_in state ZOOM_RATIO) ZOOM_RATIO)
    <> real_range state.
Proof. vm_compute. split; [reflexivity | discriminate]. Qed.

(** At binary64, with the default ratio and ranges 3, zooming in and
    back out gives the ranges back bit for bit. *)
Example zoom_round_trip_default :
  let state := sample_state 100 100 (b64_ratio (-1) 2) (B64.of_int 0)
                            (B64.of_int 3) (B64.of_int 3) in
  ZOOM_RATIO = S754_finite false 4953959590107546 (-52) /\
  real_range (zoom_out (zoom_in state ZOOM_RATIO) ZOOM_RATIO) = real_range state /\
  imag_range (zoom_out (zoom_in state ZOOM_RATIO) ZOOM_RATIO) = imag_range state.
Proof. vm_compute. repeat split. Qed.

(** ** The pixel buffer and the render cycle *)

Section RenderFacts.
Context {D : Type} {ops : DoubleOps D} {libm : CMath D}.
Variable MAX_ITERATION : Z.
Variable threshold : D.
Variable in_set : Color.t.

Lemma mandelbrot_pixels_rows (real_lo real_hi imag_lo imag_hi : D) (width height : Z)
    (pal : list Color.t) :
  Forall (fun row : list Color.t => length row = Z.to_nat width)
    ((fun y =>
        (fun x => pixel_color MAX_ITERATION threshold in_set real_lo real_hi imag_lo imag_hi
                              width height pal x y) <$> seqZ 0 width)
       <$> seqZ 0 height).
Proof.
  apply Forall_fmap, Forall_forall. intros y _. simpl.
  rewrite length_fmap, length_seqZ. reflexivity.
Qed.

Lemma mandelbrot_pixels_length (real_lo real_hi imag_lo imag_hi : D) (width height : Z)
    (pal : list Color.t) :
  length (mandelbrot_pixels MAX_ITERATION threshold in_set real_lo real_hi imag_lo imag_hi
                            width height pal)
    = (Z.to_nat height * Z.to_nat width)%nat.
Proof.
  unfold mandelbrot_pixels. rewrite length_join.
  rewrite (sum_list_fmap_same (Z.to_nat width)) by apply mandelbrot_pixels_rows.
  rewrite length_fmap, length_seqZ. reflexivity.
Qed.

(** Row-major addressing: pixel [(x, y)] sits at index [y * width + x]. *)
Lemma mandelbrot_pixels_lookup (real_lo real_hi imag_lo imag_hi : D) (width height : Z)
    (pal : list Color.t) (x y : Z) :
  0 <= x < width -> 0 <= y < height ->
  mandelbrot_pixels MAX_ITERATION threshold in_set real_lo real_hi imag_lo imag_hi
                    width height pal !! Z.to_nat (y * width + x)
    = Some (pixel_color MAX_ITERATION threshold in_set real_lo real_hi imag_lo imag_hi
                        width height pal x y).
Proof.
  intros Hx Hy. unfold mandelbrot_pixels.
  replace (Z.to_nat (y * width + x))
    with (Z.to_nat y * Z.to_nat width + Z.to_nat x)%nat by nia.
  apply (join_lookup_Some_same_length' (Z.to_nat width)).
  - apply mandelbrot_pixels_rows.
  - lia.
  - eexists. split.
    + rewrite list_lookup_fmap, lookup_seqZ_lt by lia. reflexivity.
    + rewrite list_lookup_fmap, lookup_seqZ_lt by lia. simpl.
      rewrite !Z2Nat.id by lia. reflexivity.
Qed.
End RenderFacts.

(** What [graphics_init] keeps in [in_set_color]. *)
Lemma graphics_init_in_set_color {D : Type} (MAX_ITERATION : Z) (sdl_ok : bool)
    (mem : option (list Color.t)) (config : Config.t D) (s : GState D) :
  graphics_init MAX_ITERATION sdl_ok mem config = Some s ->
  in_set_color s = Color.of_hexcode IN_SET_COLOR /\
  Color.of_hexcode IN_SET_COLOR = Color.mk 5 5 5.
Proof.
  unfold graphics_init. destruct sdl_ok; [|discriminate].
  destruct (create_palette _ _ _ _); [|discriminate].
  intros [= <-]. split; reflexivity.
Qed.

(** C6. In the raster [update] builds, the pixel [(x, y)], stored at
    index [y * window_w + x], holds the colour chosen by the evaluator's
    result at its plane point: for [Escaped n] the palette entry
    [palette[n]], and for [Bounded] the in-set colour held apart from the
    palette, whatever the palette's slots contain. *)
Theorem update_pixel_colors {D : Type} (ops : DoubleOps D) (libm : CMath D)
    (MAX_ITERATION : Z) (threshold : D) (in_set : Color.t) (host_ok : GState D -> bool)
    (state : GState D) (x y : Z) :
  host_ok state = true ->
  0 <= x < window_w state ->
  0 <= y < window_h state ->
  exists raster,
    update MAX_ITERATION threshold in_set host_ok state = Some raster /\
    length raster = (Z.to_nat (window_h state) * Z.to_nat (window_w state))%nat /\
    let point :=
      mkComplex (map_range (dof_int x) (dof_int 0) (dof_int (window_w state))
                           (REAL_LO state) (REAL_HI state))
                (map_range (dof_int y) (dof_int 0) (dof_int (window_h state))
                           (IMAG_LO state) (IMAG_HI state)) in
    (evaluate MAX_ITERATION threshold point = Bounded ->
     raster !! Z.to_nat (y * window_w state + x) = Some in_set) /\
    (forall n col,
       evaluate MAX_ITERATION threshold point = Escaped n ->
       palette state !! Z.to_nat n = Some col ->
       raster !! Z.to_nat (y * window_w state + x) = Some col).
Proof.
  intros Hok Hx Hy. unfold update. rewrite Hok. eexists. split; [reflexivity|].
  split; [apply mandelbrot_pixels_length|].
  cbv zeta. rewrite mandelbrot_pixels_lookup by assumption.
  unfold pixel_color. split.
  - intros ->. reflexivity.
  - intros n col -> ->. reflexivity.
Qed.

Lemma update_pixel_colors_witness :
  let state := mkGState true 2 2 (B64.of_int 3) (B64.of_int 3)
                 (Point.mk (b64_ratio (-1) 2) (B64.of_int 0))
                 (Color.of_hexcode IN_SET_COLOR)
                 [Color.mk 34 0 0; Color.mk 38 15 71; Color.mk 42 30 142; Color.mk 0 0 0]
                 false true in
  exists raster,
    update (libm := plain_libm) 3 Header._INFINITY (Color.of_hexcode IN_SET_COLOR)
           (fun _ => true) state = Some raster /\
    raster !! 3%nat = Some (Color.mk 5 5 5).
Proof.
  intros state.
  destruct (update_pixel_colors binary64 plain_libm 3 Header._INFINITY
              (Color.of_hexcode IN_SET_COLOR) (fun _ => true) state 1 1)
    as (raster & Hup & _ & Hin & _).
  - reflexivity.
  - simpl. lia.
  - simpl. lia.
  - exists raster. split; [exact Hup|]. apply Hin. vm_compute. reflexivity.
Defined.

(** The tick, written out: the events are folded in first, the flag is
    read after, and at most one raster is built. *)
Lemma tick_equation {D : Type} (ops : DoubleOps D) (libm : CMath D)
    (MAX_ITERATION : Z) (threshold : D) (in_set : Color.t) (host_ok : GState D -> bool)
    (state : GState D) (queue : list SDL_Event) :
  let state' := event_handler state queue in
  let frame := mandelbrot_pixels MAX_ITERATION threshold in_set
                 (REAL_LO state') (REAL_HI state') (IMAG_LO state') (IMAG_HI state')
                 (window_w state') (window_h state') (palette state') in
  tick MAX_ITERATION threshold in_set host_ok state queue =
    (if changed state || negb (bool_decide (queue = []))
     then if host_ok state' then Some (set_changed false state', [frame]) else None
     else Some (state', [])).
Proof.
  intros state' frame.
  unfold tick. fold state'. unfold state' at 1. rewrite changed_event_handler.
  destruct (changed state || negb (bool_decide (queue = []))); [|reflexivity].
  unfold update. destruct (host_ok state'); reflexivity.
Qed.

(** C9. One tick first folds every queued event into the state, then
    looks at [changed]: when it is set (which it is as soon as the queue
    held one event) the tick builds and presents exactly one raster, that
    of the state after all the events, and clears the flag; otherwise it
    presents nothing. So [N >= 1] events in one tick give one frame. *)
Theorem tick_coalesces_events {D : Type} (ops : DoubleOps D) (libm : CMath D)
    (MAX_ITERATION : Z) (threshold : D) (in_set : Color.t) (host_ok : GState D -> bool)
    (state : GState D) (queue : list SDL_Event) :
  let state' := event_handler state queue in
  let frame := mandelbrot_pixels MAX_ITERATION threshold in_set
                 (REAL_LO state') (REAL_HI state') (IMAG_LO state') (IMAG_HI state')
                 (window_w state') (window_h state') (palette state') in
  tick MAX_ITERATION threshold in_set host_ok state queue =
    (if changed state || negb (bool_decide (queue = []))
     then if host_ok state' then Some (set_changed false state', [frame]) else None
     else Some (state', [])) /\
  changed (set_changed false state') = false /\
  (queue <> [] -> host_ok state' = true ->
   tick MAX_ITERATION threshold in_set host_ok state queue
     = Some (set_changed false state', [frame])).
Proof.
  intros state' frame.
  pose proof (tick_equation ops libm MAX_ITERATION threshold in_set host_ok state queue) as Heq.
  cbv zeta in Heq. fold state' in Heq. fold frame in Heq.
  split; [exact Heq|]. split; [reflexivity|].
  intros Hq Hok. rewrite Heq, Hok.
  rewrite bool_decide_eq_false_2 by exact Hq.
  rewrite orb_true_r. reflexivity.
Qed.

Lemma tick_coalesces_events_witness :
  let state := sample_state 2 2 (b64_ratio (-1) 2) (B64.of_int 0)
                            (B64.of_int 3) (B64.of_int 3) in
  let queue := [SDL_KEYDOWN SDLK_LEFT; SDL_KEYDOWN SDLK_LEFT; SDL_KEYDOWN SDLK_UP] in
  exists state' frame,
    tick (libm := plain_libm) 3 Header._INFINITY (Color.of_hexcode IN_SET_COLOR)
         (fun _ => true) state queue
      = Some (state', [frame]) /\
    Point.x (center state') = b64_ratio (-11) 10.
Proof.
  intros state queue. do 2 eexists. split.
  - apply (proj2 (proj2 (tick_coalesces_events binary64 plain_libm 3 Header._INFINITY
                    (Color.of_hexcode IN_SET_COLOR) (fun _ => true) state queue))).
    + discriminate.
    + reflexivity.
  - vm_compute. reflexivity.
Defined.

(** Over a run, no tick presents more than one frame. *)
Lemma graphics_run_frames {D : Type} (ops : DoubleOps D) (libm : CMath D)
    (MAX_ITERATION : Z) (threshold : D) (in_set : Color.t) (host_ok : GState D -> bool)
    (ticks : list (list SDL_Event)) :
  forall state frames state' frames',
    graphics_run MAX_ITERATION threshold in_set host_ok ticks state frames
      = Some (state', frames') ->
    (length frames' <= length frames + length ticks)%nat.
Proof.
  induction ticks as [|queue ticks IH]; intros state frames state' frames'; simpl.
  - intros [= _ <-]. lia.
  - destruct (running state); [|intros [= _ <-]; lia].
    rewrite (tick_equation ops libm MAX_ITERATION threshold in_set host_ok state queue).
    destruct (changed state || negb (bool_decide (queue = []))).
    + destruct (host_ok _); [|discriminate].
      intros Hrun. apply IH in Hrun. rewrite length_app in Hrun. simpl in Hrun. lia.
    + intros Hrun. apply IH in Hrun. rewrite length_app in Hrun. simpl in Hrun. lia.
Qed.


(** * Further properties of the code *)

(** ** The evaluator's escape index *)

Section OrbitFacts.
Context {D : Type} {ops : DoubleOps D} {libm : CMath D}.
Variable threshold : D.

(** The loop returns at the first iterate whose modulus exceeds the
    threshold, and runs out when none of the [k] iterates does. *)
Lemma in_set_loop_first_escape (c : Complex D) :
  forall k i z,
    (in_set_loop threshold c k i z = (-1, k) /\
     forall j, (j < k)%nat -> dgt (cabs (orbit_from c z (S j))) threshold = false) \/
    (exists j, (j < k)%nat /\
       in_set_loop threshold c k i z = (i + Z.of_nat j, S j) /\
       dgt (cabs (orbit_from c z (S j))) threshold = true /\
       forall j', (j' < j)%nat ->
         dgt (cabs (orbit_from c z (S j'))) threshold = false).
Proof.
  induction k as [|k IH]; intros i z.
  - left. split; [reflexivity | intros j Hj; lia].
  - simpl in_set_loop.
    destruct (dgt (cabs (cadd (cpow z (complex_of_int 2)) c)) threshold) eqn:Hz.
    + right. exists O. split; [lia|]. split; [f_equal; lia|].
      split; [exact Hz | intros j' Hj'; lia].
    + destruct (IH (i + 1) (cadd (cpow z (complex_of_int 2)) c))
        as [[Hrun Hno] | (j & Hj & Hrun & Hesc & Hno)].
      * left. rewrite Hrun. split; [reflexivity|].
        intros [|j] Hj; [exact Hz | apply Hno; lia].
      * right. exists (S j). split; [lia|]. rewrite Hrun.
        split; [f_equal; lia|]. split; [exact Hesc|].
        intros [|j'] Hj'; [exact Hz | apply Hno; lia].
Qed.

(** The same for the whole function, on the iterates from [z = 0]. *)
Lemma mandelbrot_run_cases (MAX_ITERATION : Z) (c : Complex D) :
  (mandelbrot_run MAX_ITERATION threshold c = (-1, Z.to_nat MAX_ITERATION) /\
   forall k, (1 <= k <= Z.to_nat MAX_ITERATION)%nat ->
     dgt (cabs (orbit c k)) threshold = false) \/
  (exists j, (j < Z.to_nat MAX_ITERATION)%nat /\
     mandelbrot_run MAX_ITERATION threshold c = (Z.of_nat j, S j) /\
     dgt (cabs (orbit c (S j))) threshold = true /\
     forall k, (1 <= k <= j)%nat -> dgt (cabs (orbit c k)) threshold = false).
Proof.
  unfold mandelbrot_run, orbit. rewrite Z.sub_0_r.
  destruct (in_set_loop_first_escape c (Z.to_nat MAX_ITERATION) 0 (complex_of_int 0))
    as [[Hrun Hno] | (j & Hj & Hrun & Hesc & Hno)].
  - left. split; [exact Hrun|].
    intros [|k] Hk; [lia | apply Hno; lia].
  - right. exists j. split; [exact Hj|]. split; [exact Hrun|]. split; [exact Hesc|].
    intros [|k] Hk; [lia | apply Hno; lia].
Qed.
End OrbitFacts.

Section EscapeIndex.
Context {D : Type} {ops : DoubleOps D} {libm : CMath D}.
Variable threshold : D.

Lemma in_set_bounded_iff (MAX_ITERATION : Z) (c : Complex D) :
  mandelbrot_in_set MAX_ITERATION threshold c = -1 <->
  forall k, (1 <= k <= Z.to_nat MAX_ITERATION)%nat ->
    dgt (cabs (orbit c k)) threshold = false.
Proof.
  unfold mandelbrot_in_set.
  destruct (mandelbrot_run_cases threshold MAX_ITERATION c)
    as [[Hrun Hno] | (j & Hj & Hrun & Hesc & Hno)]; rewrite Hrun; simpl.
  - split; [intros _; exact Hno | reflexivity].
  - split; [lia|]. intros Hall. rewrite Hall in Hesc by lia. discriminate.
Qed.

Lemma in_set_index_iff (MAX_ITERATION : Z) (c : Complex D) (n : nat) :
  mandelbrot_in_set MAX_ITERATION threshold c = Z.of_nat n <->
  (n < Z.to_nat MAX_ITERATION)%nat /\
  dgt (cabs (orbit c (S n))) threshold = true /\
  forall k, (1 <= k <= n)%nat -> dgt (cabs (orbit c k)) threshold = false.
Proof.
  unfold mandelbrot_in_set.
  destruct (mandelbrot_run_cases threshold MAX_ITERATION c)
    as [[Hrun Hno] | (j & Hj & Hrun & Hesc & Hno)]; rewrite Hrun; simpl.
  - split; [lia|]. intros (Hn & Hesc & _). rewrite Hno in Hesc by lia. discriminate.
  - split.
    + intros E. apply Nat2Z.inj in E. subst j. auto.
    + intros (Hn & Hesc' & Hno'). f_equal.
      destruct (Nat.lt_trichotomy j n) as [Hlt | [-> | Hgt]]; [|reflexivity|].
      * rewrite Hno' in Hesc by lia. discriminate.
      * rewrite Hno in Hesc' by lia. discriminate.
Qed.

Lemma mandelbrot_run_count (MAX_ITERATION : Z) (c : Complex D) :
  snd (mandelbrot_run MAX_ITERATION threshold c) =
    if mandelbrot_in_set MAX_ITERATION threshold c =? -1
    then Z.to_nat MAX_ITERATION
    else S (Z.to_nat (mandelbrot_in_set MAX_ITERATION threshold c)).
Proof.
  unfold mandelbrot_in_set.
  destruct (mandelbrot_run_cases threshold MAX_ITERATION c)
    as [[Hrun Hno] | (j & Hj & Hrun & Hesc & Hno)]; rewrite Hrun; simpl.
  - reflexivity.
  - destruct (Z.eqb_spec (Z.of_nat j) (-1)); [lia|]. rewrite Nat2Z.id. reflexivity.
Qed.
End EscapeIndex.

(** X1. The index [mandelbrot_in_set] returns is the escape time of the
    point: it returns [n >= 0] exactly when [n < MAX_ITERATION], the
    iterate number [n + 1] is the first whose modulus exceeds the
    threshold, and it returns [-1] exactly when none of the first
    [MAX_ITERATION] iterates does. *)
Theorem escape_index_is_first_escape {D : Type} (ops : DoubleOps D) (libm : CMath D)
    (MAX_ITERATION : Z) (threshold : D) (c : Complex D) :
  (forall n : nat,
     mandelbrot_in_set MAX_ITERATION threshold c = Z.of_nat n <->
     (n < Z.to_nat MAX_ITERATION)%nat /\
     dgt (cabs (orbit c (S n))) threshold = true /\
     forall k, (1 <= k <= n)%nat -> dgt (cabs (orbit c k)) threshold = false) /\
  (mandelbrot_in_set MAX_ITERATION threshold c = -1 <->
   forall k, (1 <= k <= Z.to_nat MAX_ITERATION)%nat ->
     dgt (cabs (orbit c k)) threshold = false).
Proof.
  split.
  - intros n. apply in_set_index_iff.
  - apply in_set_bounded_iff.
Qed.

(** X2. The cost of one evaluation: the loop body runs [n + 1] times
    when the function returns the index [n], and [MAX_ITERATION] times
    (none for a bound that is not positive) when it returns [-1]. *)
Theorem evaluator_iteration_count {D : Type} (ops : DoubleOps D) (libm : CMath D)
    (MAX_ITERATION : Z) (threshold : D) (c : Complex D) :
  let r := mandelbrot_in_set MAX_ITERATION threshold c in
  (r = -1 -> snd (mandelbrot_run MAX_ITERATION threshold c) = Z.to_nat MAX_ITERATION) /\
  (r <> -1 -> Z.of_nat (snd (mandelbrot_run MAX_ITERATION threshold c)) = r + 1).
Proof.
  intros r. pose proof (mandelbrot_run_count threshold MAX_ITERATION c) as Hc.
  fold r in Hc.
  pose proof (in_set_loop_range threshold c (Z.to_nat (MAX_ITERATION - 0)) 0
                (complex_of_int 0)) as Hr.
  unfold r, mandelbrot_in_set, mandelbrot_run in *.
  destruct (in_set_loop threshold c _ 0 _) as [v n]. simpl in *.
  destruct Hr as [Hv _]. split; intros Hcase.
  - rewrite Hcase in Hc. exact Hc.
  - destruct (Z.eqb_spec v (-1)); [contradiction|]. rewrite Hc. lia.
Qed.

Lemma evaluator_iteration_count_witness :
  mandelbrot_in_set (libm := plain_libm) 5 (B64.of_int 2) (complex_of_int 2) = 1 /\
  Z.of_nat (snd (mandelbrot_run (libm := plain_libm) 5 (B64.of_int 2) (complex_of_int 2)))
    = mandelbrot_in_set (libm := plain_libm) 5 (B64.of_int 2) (complex_of_int 2) + 1.
Proof.
  split; [vm_compute; reflexivity|].
  apply (proj2 (evaluator_iteration_count binary64 plain_libm 5 (B64.of_int 2)
                  (complex_of_int 2))).
  vm_compute. discriminate.
Defined.

(** X3. Raising the iteration bound never changes the index of a point
    that already escaped, and a point bounded under the larger bound is
    bounded under the smaller one. *)
Theorem escape_index_stable_in_bound {D : Type} (ops : DoubleOps D) (libm : CMath D)
    (MAX_ITERATION MAX_ITERATION' : Z) (threshold : D) (c : Complex D) :
  MAX_ITERATION <= MAX_ITERATION' ->
  (forall n, 0 <= n ->
     mandelbrot_in_set MAX_ITERATION threshold c = n ->
     mandelbrot_in_set MAX_ITERATION' threshold c = n) /\
  (mandelbrot_in_set MAX_ITERATION' threshold c = -1 ->
   mandelbrot_in_set MAX_ITERATION threshold c = -1).
Proof.
  intros Hle. split.
  - intros n Hn Hret. rewrite <- (Z2Nat.id n) in * by lia.
    apply in_set_index_iff in Hret. apply in_set_index_iff.
    destruct Hret as (Hlt & Hesc & Hno). repeat split; [lia | exact Hesc | exact Hno].
  - intros Hret. apply in_set_bounded_iff. intros k Hk.
    apply (proj1 (in_set_bounded_iff threshold MAX_ITERATION' c) Hret). lia.
Qed.

Lemma escape_index_stable_in_bound_witness :
  mandelbrot_in_set (libm := plain_libm) 50 (B64.of_int 2) (complex_of_int 2) = 1.
Proof.
  apply (proj1 (escape_index_stable_in_bound binary64 plain_libm 3 50 (B64.of_int 2)
                  (complex_of_int 2) ltac:(lia)) 1).
  - lia.
  - vm_compute. reflexivity.
Defined.

(** ** The palette's gradient *)

Lemma channel_step_nonneg (MAX_ITERATION s e : Z) :
  0 < MAX_ITERATION -> 0 <= channel_step MAX_ITERATION s e.
Proof.
  intros HM. unfold channel_step. apply Z.quot_pos; lia.
Qed.

(** With [0 <= start <= end] on a channel, the sum at index [i] stays
    between the two. *)
Lemma channel_sum_between (MAX_ITERATION s e i : Z) :
  0 < MAX_ITERATION -> 0 <= i < MAX_ITERATION -> 0 <= s <= e ->
  s <= i * channel_step MAX_ITERATION s e + s <= e.
Proof.
  intros HM Hi Hse.
  pose proof (channel_step_nonneg MAX_ITERATION s e HM) as Hq.
  unfold channel_step in *.
  rewrite Z.abs_eq in * by lia. rewrite Z.quot_div_nonneg in * by lia.
  assert (Hm : MAX_ITERATION * ((e - s) / MAX_ITERATION) <= e - s)
    by (apply Z.mul_div_le; lia).
  nia.
Qed.

(** The gradient slots of the table [create_palette] returns. *)
Lemma create_palette_slot (MAX_ITERATION : Z) (mem : list Color.t)
    (start end_ : Color.t) (i : Z) :
  0 <= i < MAX_ITERATION ->
  length mem = Z.to_nat (MAX_ITERATION + 1) ->
  exists p,
    create_palette MAX_ITERATION (Some mem) start end_ = Some p /\
    p !! Z.to_nat i =
      Some (palette_slot start
              (channel_step MAX_ITERATION (Color.r start) (Color.r end_))
              (channel_step MAX_ITERATION (Color.g start) (Color.g end_))
              (channel_step MAX_ITERATION (Color.b start) (Color.b end_)) i).
Proof.
  intros Hi Hlen. unfold create_palette. eexists. split; [reflexivity|].
  rewrite Z.sub_0_r.
  rewrite list_lookup_insert_ne by lia.
  rewrite palette_loop_lookup by (simpl; lia).
  rewrite decide_True by (simpl; lia).
  rewrite Z2Nat.id by lia. reflexivity.
Qed.

(** X4. When, on every channel, [0 <= start <= end <= 255], the gradient
    [create_palette] builds begins at the start colour, never decreases
    along the indices, and never passes the end colour. *)
Theorem palette_gradient_within_endpoints (MAX_ITERATION : Z) (mem : list Color.t)
    (start end_ : Color.t) :
  0 < MAX_ITERATION ->
  length mem = Z.to_nat (MAX_ITERATION + 1) ->
  0 <= Color.r start <= Color.r end_ -> Color.r end_ < 256 ->
  0 <= Color.g start <= Color.g end_ -> Color.g end_ < 256 ->
  0 <= Color.b start <= Color.b end_ -> Color.b end_ < 256 ->
  exists p,
    create_palette MAX_ITERATION (Some mem) start end_ = Some p /\
    p !! 0%nat = Some start /\
    forall i j ci cj, 0 <= i <= j -> j < MAX_ITERATION ->
      p !! Z.to_nat i = Some ci -> p !! Z.to_nat j = Some cj ->
      (Color.r start <= Color.r ci <= Color.r cj /\ Color.r cj <= Color.r end_) /\
      (Color.g start <= Color.g ci <= Color.g cj /\ Color.g cj <= Color.g end_) /\
      (Color.b start <= Color.b ci <= Color.b cj /\ Color.b cj <= Color.b end_).
Proof.
  intros HM Hlen Hr Hr' Hg Hg' Hb Hb'.
  destruct (create_palette_slot MAX_ITERATION mem start end_ 0 ltac:(lia) Hlen)
    as (p & Hp & H0).
  exists p. split; [exact Hp|]. split.
  - change (Z.to_nat 0) with O in H0. rewrite H0. f_equal.
    destruct start as [sr sg sb]. unfold palette_slot. simpl in *.
    rewrite !u8_small by lia. reflexivity.
  - intros i j ci cj Hij Hj Hci Hcj.
    destruct (create_palette_slot MAX_ITERATION mem start end_ i ltac:(lia) Hlen)
      as (p1 & Hp1 & Hi1).
    destruct (create_palette_slot MAX_ITERATION mem start end_ j ltac:(lia) Hlen)
      as (p2 & Hp2 & Hj2).
    assert (p1 = p) by congruence. assert (p2 = p) by congruence. subst p1 p2.
    rewrite Hi1 in Hci. rewrite Hj2 in Hcj.
    injection Hci as <-. injection Hcj as <-.
    unfold palette_slot. cbn [Color.r Color.g Color.b].
    rewrite !u8_small by (apply channel_sum_in_byte; lia).
    pose proof (channel_step_nonneg MAX_ITERATION (Color.r start) (Color.r end_) HM).
    pose proof (channel_step_nonneg MAX_ITERATION (Color.g start) (Color.g end_) HM).
    pose proof (channel_step_nonneg MAX_ITERATION (Color.b start) (Color.b end_) HM).
    pose proof (channel_sum_between MAX_ITERATION (Color.r start) (Color.r end_) i
                  HM ltac:(lia) Hr).
    pose proof (channel_sum_between MAX_ITERATION (Color.g start) (Color.g end_) i
                  HM ltac:(lia) Hg).
    pose proof (channel_sum_between MAX_ITERATION (Color.b start) (Color.b end_) i
                  HM ltac:(lia) Hb).
    pose proof (channel_sum_between MAX_ITERATION (Color.r start) (Color.r end_) j
                  HM ltac:(lia) Hr).
    pose proof (channel_sum_between MAX_ITERATION (Color.g start) (Color.g end_) j
                  HM ltac:(lia) Hg).
    pose proof (channel_sum_between MAX_ITERATION (Color.b start) (Color.b end_) j
                  HM ltac:(lia) Hb).
    repeat split; try lia; nia.
Qed.

Lemma palette_gradient_within_endpoints_witness :
  exists p,
    create_palette 4 (Some (replicate 5 (Color.mk 9 9 9)))
                   (Color.of_hexcode PALETTE_START) (Color.of_hexcode PALETTE_END)
      = Some p /\
    p !! 0%nat = Some (Color.of_hexcode PALETTE_START).
Proof.
  destruct (palette_gradient_within_endpoints 4 (replicate 5 (Color.mk 9 9 9))
              (Color.of_hexcode PALETTE_START) (Color.of_hexcode PALETTE_END))
    as (p & Hp & H0 & _).
  - lia.
  - reflexivity.
  - vm_compute. split; discriminate.
  - reflexivity.
  - vm_compute. split; discriminate.
  - reflexivity.
  - vm_compute. split; discriminate.
  - reflexivity.
  - exists p. split; [exact Hp | exact H0].
Defined.

Lemma channel_step_zero (MAX_ITERATION s e : Z) :
  Z.abs (e - s) < MAX_ITERATION -> channel_step MAX_ITERATION s e = 0.
Proof.
  intros Hd. unfold channel_step. apply Z.quot_small. lia.
Qed.

(** X5. The division truncates: on a channel where the distance between
    the end and the start value is below [MAX_ITERATION] the step is 0, and
    every gradient entry keeps the start value on that channel. *)
Theorem palette_flat_channel (MAX_ITERATION : Z) (mem : list Color.t)
    (start end_ : Color.t) (i : Z) :
  0 <= i < MAX_ITERATION ->
  length mem = Z.to_nat (MAX_ITERATION + 1) ->
  exists p col,
    create_palette MAX_ITERATION (Some mem) start end_ = Some p /\
    p !! Z.to_nat i = Some col /\
    (Z.abs (Color.r end_ - Color.r start) < MAX_ITERATION -> 0 <= Color.r start < 256 ->
     Color.r col = Color.r start) /\
    (Z.abs (Color.g end_ - Color.g start) < MAX_ITERATION -> 0 <= Color.g start < 256 ->
     Color.g col = Color.g start) /\
    (Z.abs (Color.b end_ - Color.b start) < MAX_ITERATION -> 0 <= Color.b start < 256 ->
     Color.b col = Color.b start).
Proof.
  intros Hi Hlen.
  destruct (create_palette_slot MAX_ITERATION mem start end_ i Hi Hlen) as (p & Hp & Hs).
  exists p. eexists. split; [exact Hp|]. split; [exact Hs|].
  unfold palette_slot. cbn [Color.r Color.g Color.b].
  repeat split; intros Hd Hb; rewrite channel_step_zero by exact Hd;
    rewrite Z.mul_0_r, Z.add_0_l; apply u8_small; exact Hb.
Qed.

(** With 20 iterations the red channel of the program's palette, which
    goes from 0x22 to 0x2f, stays at 0x22. *)
Lemma palette_flat_channel_witness :
  exists p col,
    create_palette 20 (Some (replicate 21 (Color.mk 9 9 9)))
                   (Color.of_hexcode PALETTE_START) (Color.of_hexcode PALETTE_END)
      = Some p /\
    p !! 19%nat = Some col /\ Color.r col = 0x22.
Proof.
  destruct (palette_flat_channel 20 (replicate 21 (Color.mk 9 9 9))
              (Color.of_hexcode PALETTE_START) (Color.of_hexcode PALETTE_END) 19)
    as (p & col & Hp & Hcol & Hred & _).
  - lia.
  - reflexivity.
  - exists p, col. split; [exact Hp|]. split; [exact Hcol|].
    apply Hred; vm_compute; [reflexivity | split; [discriminate | reflexivity]].
Defined.

(** X6. Every slot of the block has its three channels written: the
    channel values of the table returned do not depend on what the block
    held when [malloc] handed it over. *)
Theorem create_palette_overwrites_block (MAX_ITERATION : Z) (mem mem' : list Color.t)
    (start end_ : Color.t) :
  0 < MAX_ITERATION ->
  length mem = Z.to_nat (MAX_ITERATION + 1) ->
  length mem' = Z.to_nat (MAX_ITERATION + 1) ->
  create_palette MAX_ITERATION (Some mem) start end_
    = create_palette MAX_ITERATION (Some mem') start end_.
Proof.
  intros HM Hlen Hlen'. unfold create_palette. f_equal.
  rewrite Z.sub_0_r.
  apply list_eq. intros j.
  destruct (decide (j = Z.to_nat MAX_ITERATION)) as [-> | Hne].
  - rewrite !list_lookup_insert_eq by (rewrite palette_loop_length; lia). reflexivity.
  - rewrite !list_lookup_insert_ne by congruence.
    rewrite !palette_loop_lookup by (simpl; lia).
    case_decide; [reflexivity|].
    rewrite !lookup_ge_None_2 by lia. reflexivity.
Qed.

Lemma create_palette_overwrites_block_witness :
  create_palette 3 (Some (replicate 4 (Color.mk 1 2 3))) (Color.mk 0 0 0) (Color.mk 90 60 30)
    = create_palette 3 (Some (replicate 4 (Color.mk 200 100 50)))
                     (Color.mk 0 0 0) (Color.mk 90 60 30).
Proof.
  apply create_palette_overwrites_block; [lia | reflexivity | reflexivity].
Defined.

(** ** What the event handler keeps *)

Ltac event_cases e :=
  let sym := fresh "sym" in
  let wy := fresh "wy" in
  let b := fresh "b" in
  let bx := fresh "bx" in
  let by_ := fresh "by_" in
  destruct e as [| sym | wy | b bx by_ |];
  [ | destruct sym
    | unfold handle_event, dispatch; destruct (wy =? -1); [| destruct (wy =? 1)]
    | destruct b | ].

Section HandlerFacts.
Context {D : Type} {ops : DoubleOps D}.

Lemma handle_event_static (state : GState D) (e : SDL_Event) :
  window_w (handle_event state e) = window_w state /\
  window_h (handle_event state e) = window_h state /\
  palette (handle_event state e) = palette state /\
  in_set_color (handle_event state e) = in_set_color state /\
  moving (handle_event state e) = moving state.
Proof. event_cases e; repeat split. Qed.

Lemma event_handler_static (queue : list SDL_Event) : forall state : GState D,
  window_w (event_handler state queue) = window_w state /\
  window_h (event_handler state queue) = window_h state /\
  palette (event_handler state queue) = palette state /\
  in_set_color (event_handler state queue) = in_set_color state /\
  moving (event_handler state queue) = moving state.
Proof.
  unfold event_handler.
  induction queue as [|e queue IH]; intros state; simpl; [repeat split|].
  destruct (IH (handle_event state e)) as (H1 & H2 & H3 & H4 & H5).
  destruct (handle_event_static state e) as (E1 & E2 & E3 & E4 & E5).
  rewrite H1, H2, H3, H4, H5. repeat split; assumption.
Qed.

Lemma handle_event_running (state : GState D) (e : SDL_Event) :
  (e = SDL_QUIT \/ e = SDL_KEYDOWN SDLK_q -> running (handle_event state e) = false) /\
  (e <> SDL_QUIT -> e <> SDL_KEYDOWN SDLK_q ->
   running (handle_event state e) = running state).
Proof.
  split.
  - intros [-> | ->]; reflexivity.
  - intros H1 H2. event_cases e; try reflexivity; contradiction.
Qed.

Lemma handle_event_square (state : GState D) (e : SDL_Event) :
  real_range state = imag_range state ->
  real_range (handle_event state e) = imag_range (handle_event state e).
Proof.
  intros Hsq. event_cases e; cbn; try exact Hsq; rewrite Hsq; reflexivity.
Qed.
End HandlerFacts.

Lemma quit_event_dec (e : SDL_Event) :
  (e = SDL_QUIT \/ e = SDL_KEYDOWN SDLK_q) \/
  (e <> SDL_QUIT /\ e <> SDL_KEYDOWN SDLK_q).
Proof.
  destruct e as [| sym | | |]; try (right; split; discriminate).
  - left. left. reflexivity.
  - destruct sym; try (right; split; discriminate). left. right. reflexivity.
Qed.

(** X7. No event, handled or not, touches the window size, the palette,
    the in-set colour or the [moving] flag: they are the same after any
    queue of events. *)
Theorem event_handler_keeps_window_and_palette {D : Type} (ops : DoubleOps D)
    (state : GState D) (queue : list SDL_Event) :
  window_w (event_handler state queue) = window_w state /\
  window_h (event_handler state queue) = window_h state /\
  palette (event_handler state queue) = palette state /\
  in_set_color (event_handler state queue) = in_set_color state /\
  moving (event_handler state queue) = moving state.
Proof. apply event_handler_static. Qed.

Lemma running_after_events {D : Type} (ops : DoubleOps D)
    (queue : list SDL_Event) (state : GState D) :
  running (event_handler state queue) = true <->
  running state = true /\ ~ In SDL_QUIT queue /\ ~ In (SDL_KEYDOWN SDLK_q) queue.
Proof.
  unfold event_handler. revert state.
  induction queue as [|e queue IH]; intros state; simpl.
  - tauto.
  - rewrite IH.
    destruct (handle_event_running state e) as [Hq Hn].
    destruct (quit_event_dec e) as [Hquit | [H1 H2]].
    + rewrite (Hq Hquit). split; [intros [? _]; discriminate|].
      intros (_ & HnQ & HnK). destruct Hquit as [-> | ->]; tauto.
    + rewrite (Hn H1 H2). split.
      * intros (Hr & HQ & HK). repeat split; [exact Hr | |]; intros [E | HIn]; auto.
      * intros (Hr & HQ & HK). tauto.
Qed.

(** X8. [running] only ever goes from true to false: after a queue of
    events it is true exactly when it was true before and the queue holds
    neither [SDL_QUIT] nor a press of [q]. *)
Theorem event_handler_running {D : Type} (ops : DoubleOps D)
    (queue : list SDL_Event) (state : GState D) :
  running (event_handler state queue) = true <->
  running state = true /\ ~ In SDL_QUIT queue /\ ~ In (SDL_KEYDOWN SDLK_q) queue.
Proof. apply running_after_events. Qed.

(** X9. A square viewport stays square: zooming applies the same
    operation to both ranges, so when they are equal before a queue of
    events they are equal after it, bit for bit. *)
Theorem event_handler_keeps_square {D : Type} (ops : DoubleOps D)
    (queue : list SDL_Event) (state : GState D) :
  real_range state = imag_range state ->
  real_range (event_handler state queue) = imag_range (event_handler state queue).
Proof.
  unfold event_handler. revert state.
  induction queue as [|e queue IH]; intros state Hsq; simpl; [exact Hsq|].
  apply IH. apply handle_event_square. exact Hsq.
Qed.

Lemma event_handler_keeps_square_witness :
  let state := sample_state 100 100 (B64.of_int 0) (B64.of_int 0)
                            (B64.of_int 3) (B64.of_int 3) in
  let queue := [SDL_KEYDOWN SDLK_PLUS; SDL_MOUSEWHEEL 1; SDL_KEYDOWN SDLK_p;
                SDL_MOUSEBUTTONDOWN SDL_BUTTON_RIGHT 10 20] in
  real_range (event_handler state queue) = imag_range (event_handler state queue).
Proof.
  apply (event_handler_keeps_square binary64). reflexivity.
Defined.

Section FrameFacts.
Context {D : Type} {ops : DoubleOps D}.

Lemma handle_event_ranges (state : GState D) (e : SDL_Event) :
  ~ In e [SDL_KEYDOWN SDLK_PLUS; SDL_KEYDOWN SDLK_p;
          SDL_KEYDOWN SDLK_MINUS; SDL_KEYDOWN SDLK_m;
          SDL_MOUSEWHEEL (-1); SDL_MOUSEWHEEL 1] ->
  real_range (handle_event state e) = real_range state /\
  imag_range (handle_event state e) = imag_range state.
Proof.
  intros Hn. destruct e as [| sym | wy | b bx by_ |].
  - split; reflexivity.
  - destruct sym; try (split; reflexivity); exfalso; apply Hn; simpl; tauto.
  - unfold handle_event, dispatch.
    destruct (Z.eqb_spec wy (-1)) as [-> | H1]; [exfalso; apply Hn; simpl; tauto|].
    destruct (Z.eqb_spec wy 1) as [-> | H2]; [exfalso; apply Hn; simpl; tauto|].
    split; reflexivity.
  - destruct b; split; reflexivity.
  - split; reflexivity.
Qed.

Lemma handle_event_center (state : GState D) (e : SDL_Event) :
  ~ In e [SDL_KEYDOWN SDLK_UP; SDL_KEYDOWN SDLK_k; SDL_KEYDOWN SDLK_DOWN;
          SDL_KEYDOWN SDLK_j; SDL_KEYDOWN SDLK_LEFT; SDL_KEYDOWN SDLK_h;
          SDL_KEYDOWN SDLK_RIGHT; SDL_KEYDOWN SDLK_l] ->
  (forall x y, e <> SDL_MOUSEBUTTONDOWN SDL_BUTTON_RIGHT x y) ->
  center (handle_event state e) = center state.
Proof.
  intros Hn Hb. destruct e as [| sym | wy | b bx by_ |].
  - reflexivity.
  - destruct sym; try reflexivity; exfalso; apply Hn; simpl; tauto.
  - unfold handle_event, dispatch.
    destruct (wy =? -1); [reflexivity|]. destruct (wy =? 1); reflexivity.
  - destruct b; try reflexivity. exfalso. apply (Hb bx by_). reflexivity.
  - reflexivity.
Qed.
End FrameFacts.

(** X10. Only zoom events change the ranges, and only pan keys and
    right clicks change the centre: a queue without a zoom key or a wheel
    step of 1 or -1 leaves both ranges as they were, and a queue without a
    pan key or a right click leaves the centre as it was. *)
Theorem event_handler_frame {D : Type} (ops : DoubleOps D)
    (queue : list SDL_Event) (state : GState D) :
  ((forall e, In e queue ->
      ~ In e [SDL_KEYDOWN SDLK_PLUS; SDL_KEYDOWN SDLK_p;
              SDL_KEYDOWN SDLK_MINUS; SDL_KEYDOWN SDLK_m;
              SDL_MOUSEWHEEL (-1); SDL_MOUSEWHEEL 1]) ->
   real_range (event_handler state queue) = real_range state /\
   imag_range (event_handler state queue) = imag_range state) /\
  ((forall e, In e queue ->
      ~ In e [SDL_KEYDOWN SDLK_UP; SDL_KEYDOWN SDLK_k; SDL_KEYDOWN SDLK_DOWN;
              SDL_KEYDOWN SDLK_j; SDL_KEYDOWN SDLK_LEFT; SDL_KEYDOWN SDLK_h;
              SDL_KEYDOWN SDLK_RIGHT; SDL_KEYDOWN SDLK_l] /\
      forall x y, e <> SDL_MOUSEBUTTONDOWN SDL_BUTTON_RIGHT x y) ->
   center (event_handler state queue) = center state).
Proof.
  unfold event_handler. revert state.
  induction queue as [|e queue IH]; intros state; simpl.
  - split; intros _; [split|]; reflexivity.
  - destruct (IH (handle_event state e)) as [IHr IHc]. split.
    + intros Hq.
      destruct (handle_event_ranges state e (Hq e (or_introl eq_refl))) as [E1 E2].
      destruct IHr as [R1 R2]; [intros e' He'; apply Hq; right; exact He'|].
      rewrite R1, R2. split; assumption.
    + intros Hq. rewrite IHc by (intros e' He'; apply Hq; right; exact He').
      destruct (Hq e (or_introl eq_refl)) as [Hk Hb].
      apply handle_event_center; assumption.
Qed.

Lemma event_handler_frame_witness :
  let state := sample_state 100 100 (B64.of_int 0) (B64.of_int 0)
                            (B64.of_int 3) (B64.of_int 3) in
  let queue := [SDL_KEYDOWN SDLK_LEFT; SDL_MOUSEWHEEL 2; SDL_KEYDOWN SDLK_j] in
  real_range (event_handler state queue) = real_range state /\
  imag_range (event_handler state queue) = imag_range state.
Proof.
  apply (proj1 (event_handler_frame binary64
                  [SDL_KEYDOWN SDLK_LEFT; SDL_MOUSEWHEEL 2; SDL_KEYDOWN SDLK_j]
                  (sample_state 100 100 (B64.of_int 0) (B64.of_int 0)
                                (B64.of_int 3) (B64.of_int 3)))).
  intros e He. simpl in He. simpl.
  intuition (subst; discriminate).
Defined.

(** ** Start-up and the run loop *)

Lemma create_palette_entry_between (MAX_ITERATION : Z) (mem : list Color.t)
    (start end_ : Color.t) (p : list Color.t) (i : Z) (col : Color.t) :
  0 < MAX_ITERATION -> 0 <= i < MAX_ITERATION ->
  length mem = Z.to_nat (MAX_ITERATION + 1) ->
  0 <= Color.r start <= Color.r end_ -> Color.r end_ < 256 ->
  0 <= Color.g start <= Color.g end_ -> Color.g end_ < 256 ->
  0 <= Color.b start <= Color.b end_ -> Color.b end_ < 256 ->
  create_palette MAX_ITERATION (Some mem) start end_ = Some p ->
  p !! Z.to_nat i = Some col ->
  Color.r start <= Color.r col <= Color.r end_ /\
  Color.g start <= Color.g col <= Color.g end_ /\
  Color.b start <= Color.b col <= Color.b end_.
Proof.
  intros HM Hi Hlen Hr Hr' Hg Hg' Hb Hb' Hp Hcol.
  destruct (create_palette_slot MAX_ITERATION mem start end_ i Hi Hlen) as (p' & Hp' & Hs).
  assert (p' = p) by congruence. subst p'.
  rewrite Hs in Hcol. injection Hcol as <-.
  unfold palette_slot. cbn [Color.r Color.g Color.b].
  rewrite !u8_small by (apply channel_sum_in_byte; lia).
  pose proof (channel_sum_between MAX_ITERATION (Color.r start) (Color.r end_) i HM Hi Hr).
  pose proof (channel_sum_between MAX_ITERATION (Color.g start) (Color.g end_) i HM Hi Hg).
  pose proof (channel_sum_between MAX_ITERATION (Color.b start) (Color.b end_) i HM Hi Hb).
  lia.
Qed.

(** X11. [graphics_init] fails exactly when SDL or the palette
    allocation fails. When it succeeds the state is running and marked
    changed, holds the configured window size, ranges and centre, and its
    palette has [MAX_ITERATION + 1] entries: the zero colour last, and
    before it colours whose channels all lie between those of
    [PALETTE_START] and [PALETTE_END], so no channel of it wraps. *)
Theorem graphics_init_state {D : Type} (MAX_ITERATION : Z) (block : list Color.t)
    (config : Config.t D) :
  0 < MAX_ITERATION ->
  length block = Z.to_nat (MAX_ITERATION + 1) ->
  (forall mem, graphics_init MAX_ITERATION false mem config = None) /\
  (forall sdl_ok, graphics_init MAX_ITERATION sdl_ok None config = None) /\
  exists s,
    graphics_init MAX_ITERATION true (Some block) config = Some s /\
    running s = true /\ changed s = true /\ moving s = false /\
    window_w s = Config.window_w config /\
    window_h s = Config.window_h config /\
    real_range s = Config.real_range config /\
    imag_range s = Config.imag_range config /\
    center s = Point.mk (Config.center_x config) (Config.center_y config) /\
    length (palette s) = Z.to_nat (MAX_ITERATION + 1) /\
    palette s !! Z.to_nat MAX_ITERATION = Some (Color.mk 0 0 0) /\
    forall i col, 0 <= i < MAX_ITERATION ->
      palette s !! Z.to_nat i = Some col ->
      let lo := Color.of_hexcode PALETTE_START in
      let hi := Color.of_hexcode PALETTE_END in
      Color.r lo <= Color.r col <= Color.r hi /\
      Color.g lo <= Color.g col <= Color.g hi /\
      Color.b lo <= Color.b col <= Color.b hi.
Proof.
  intros HM Hlen. split; [reflexivity|]. split; [intros []; reflexivity|].
  unfold graphics_init.
  destruct (create_palette MAX_ITERATION (Some block)
              (Color.of_hexcode PALETTE_START) (Color.of_hexcode PALETTE_END))
    as [pal|] eqn:Hpal; [|discriminate Hpal].
  eexists. split; [reflexivity|]. cbn [running changed moving window_w window_h
    real_range imag_range center palette].
  repeat (split; [reflexivity|]).
  assert (Hpal' := Hpal). unfold create_palette in Hpal'.
  injection Hpal' as Hpal'. rewrite Z.sub_0_r in Hpal'.
  split; [|split].
  - rewrite <- Hpal', length_insert, palette_loop_length. exact Hlen.
  - rewrite <- Hpal'. apply list_lookup_insert_eq. rewrite palette_loop_length. lia.
  - intros i col Hi Hcol. cbv zeta.
    apply (create_palette_entry_between MAX_ITERATION block _ _ pal i col HM Hi Hlen);
      try assumption; vm_compute; try reflexivity; split; discriminate.
Qed.

Lemma graphics_init_state_witness :
  exists s : GState spec_float,
    graphics_init 4 true (Some (replicate 5 (Color.mk 9 9 9)))
      (Config.mk 100 100 (B64.of_int 3) (B64.of_int 3) (b64_ratio (-1) 2) (B64.of_int 0))
      = Some s /\
    running s = true /\ changed s = true.
Proof.
  destruct (graphics_init_state 4 (replicate 5 (Color.mk 9 9 9))
              (Config.mk 100 100 (B64.of_int 3) (B64.of_int 3)
                         (b64_ratio (-1) 2) (B64.of_int 0)))
    as (_ & _ & s & Hs & Hrun & Hch & _).
  - lia.
  - reflexivity.
  - exists s. split; [exact Hs | split; [exact Hrun | exact Hch]].
Defined.

Section RunFacts.
Context {D : Type} {ops : DoubleOps D} {libm : CMath D}.
Variable MAX_ITERATION : Z.
Variable threshold : D.
Variable in_set : Color.t.
Variable host_ok : GState D -> bool.

Lemma graphics_run_stopped (ticks : list (list SDL_Event)) (state : GState D)
    (frames : list (list Color.t)) :
  running state = false ->
  graphics_run MAX_ITERATION threshold in_set host_ok ticks state frames
    = Some (state, frames).
Proof.
  intros Hr. destruct ticks as [|queue ticks]; simpl; [reflexivity|].
  rewrite Hr. reflexivity.
Qed.

Lemma graphics_run_extends (ticks : list (list SDL_Event)) :
  forall state frames state' frames',
    graphics_run MAX_ITERATION threshold in_set host_ok ticks state frames
      = Some (state', frames') ->
    exists shown, frames' = frames ++ shown /\ (length shown <= length ticks)%nat.
Proof.
  induction ticks as [|queue ticks IH]; intros state frames state' frames'; simpl.
  - intros [= _ <-]. exists []. rewrite app_nil_r. split; [reflexivity | simpl; lia].
  - destruct (running state).
    + rewrite (tick_equation ops libm MAX_ITERATION threshold in_set host_ok state queue).
      destruct (changed state || negb (bool_decide (queue = []))).
      * destruct (host_ok _); [|discriminate].
        intros Hrun. apply IH in Hrun. destruct Hrun as (shown & -> & Hlen).
        eexists. rewrite <- app_assoc. split; [reflexivity|]. simpl. lia.
      * intros Hrun. apply IH in Hrun. destruct Hrun as (shown & -> & Hlen).
        exists shown. rewrite app_nil_r. split; [reflexivity | lia].
    + intros [= _ <-]. exists []. rewrite app_nil_r. split; [reflexivity | simpl; lia].
Qed.
End RunFacts.

(** X12. Right after start-up the first tick draws: the state
    [graphics_init] returns is marked changed, so even with an empty event
    queue the tick presents exactly one frame, of [window_w * window_h]
    pixels, and clears the mark. *)
Theorem first_tick_draws {D : Type} (ops : DoubleOps D) (libm : CMath D)
    (MAX_ITERATION : Z) (threshold : D) (in_set : Color.t) (host_ok : GState D -> bool)
    (mem : option (list Color.t)) (config : Config.t D) (s : GState D) :
  graphics_init MAX_ITERATION true mem config = Some s ->
  host_ok s = true ->
  exists frame,
    tick MAX_ITERATION threshold in_set host_ok s [] = Some (set_changed false s, [frame]) /\
    length frame
      = (Z.to_nat (Config.window_h config) * Z.to_nat (Config.window_w config))%nat.
Proof.
  intros Hinit Hok. unfold graphics_init in Hinit.
  destruct (create_palette _ _ _ _) as [pal|]; [|discriminate].
  injection Hinit as <-.
  rewrite (tick_equation ops libm MAX_ITERATION threshold in_set host_ok _ []).
  cbn [event_handler fold_left changed orb]. rewrite Hok.
  eexists. split; [reflexivity|].
  rewrite mandelbrot_pixels_length. reflexivity.
Qed.

Lemma first_tick_draws_witness :
  let config := Config.mk 2 3 (B64.of_int 3) (B64.of_int 3)
                          (b64_ratio (-1) 2) (B64.of_int 0) in
  exists s frame,
    graphics_init 4 true (Some (replicate 5 (Color.mk 9 9 9))) config = Some s /\
    tick (libm := plain_libm) 4 Header._INFINITY (Color.of_hexcode IN_SET_COLOR)
         (fun _ => true) s [] = Some (set_changed false s, [frame]) /\
    length frame = 6%nat.
Proof.
  intros config. eexists.
  destruct (first_tick_draws binary64 plain_libm 4 Header._INFINITY
              (Color.of_hexcode IN_SET_COLOR) (fun _ => true)
              (Some (replicate 5 (Color.mk 9 9 9))) config _ eq_refl eq_refl)
    as (frame & Htick & Hlen).
  exists frame. split; [reflexivity|]. split; [exact Htick | exact Hlen].
Defined.

(** X13. Without events nothing is redrawn: from a state that is not
    marked changed, any number of ticks with an empty queue present no
    frame and leave the state as it is. *)
Theorem idle_ticks_present_nothing {D : Type} (ops : DoubleOps D) (libm : CMath D)
    (MAX_ITERATION : Z) (threshold : D) (in_set : Color.t) (host_ok : GState D -> bool)
    (n : nat) (state : GState D) (frames : list (list Color.t)) :
  changed state = false ->
  graphics_run MAX_ITERATION threshold in_set host_ok (replicate n []) state frames
    = Some (state, frames).
Proof.
  intros Hch. induction n as [|n IH]; simpl; [reflexivity|].
  destruct (running state); [|reflexivity].
  unfold tick. cbn [event_handler fold_left]. rewrite Hch.
  rewrite app_nil_r. exact IH.
Qed.

Lemma idle_ticks_present_nothing_witness :
  let state := sample_state 2 2 (b64_ratio (-1) 2) (B64.of_int 0)
                            (B64.of_int 3) (B64.of_int 3) in
  graphics_run (libm := plain_libm) 4 Header._INFINITY (Color.of_hexcode IN_SET_COLOR)
               (fun _ => true) (replicate 1000 []) state [] = Some (state, []).
Proof.
  apply (idle_ticks_present_nothing binary64 plain_libm). reflexivity.
Defined.

(** X14. A quit request ends the run after one last frame: in the tick
    whose queue holds [SDL_QUIT] or a press of [q], every event of the
    queue is still applied (those after the quit too), one frame of the
    resulting state is presented, and no later tick is processed. *)
Theorem quit_ends_run {D : Type} (ops : DoubleOps D) (libm : CMath D)
    (MAX_ITERATION : Z) (threshold : D) (in_set : Color.t) (host_ok : GState D -> bool)
    (queue : list SDL_Event) (later : list (list SDL_Event))
    (state : GState D) (frames : list (list Color.t)) :
  running state = true ->
  In SDL_QUIT queue \/ In (SDL_KEYDOWN SDLK_q) queue ->
  host_ok (event_handler state queue) = true ->
  let state' := event_handler state queue in
  graphics_run MAX_ITERATION threshold in_set host_ok (queue :: later) state frames
    = Some (set_changed false state',
            frames ++ [mandelbrot_pixels MAX_ITERATION threshold in_set
                         (REAL_LO state') (REAL_HI state') (IMAG_LO state') (IMAG_HI state')
                         (window_w state') (window_h state') (palette state')]).
Proof.
  intros Hrun Hquit Hok state'. simpl. rewrite Hrun.
  pose proof (tick_equation ops libm MAX_ITERATION threshold in_set host_ok state queue)
    as Heq.
  cbv zeta in Heq. rewrite Heq. fold state'. unfold state' at 1. rewrite Hok.
  assert (Hne : queue <> []) by (intros ->; destruct Hquit as [[] | []]).
  rewrite bool_decide_eq_false_2 by exact Hne. rewrite orb_true_r.
  apply graphics_run_stopped.
  change (running (set_changed false state')) with (running state').
  destruct (running state') eqn:Hr; [|reflexivity].
  apply running_after_events in Hr. tauto.
Qed.

Lemma quit_ends_run_witness :
  let state := sample_state 2 2 (b64_ratio (-1) 2) (B64.of_int 0)
                            (B64.of_int 3) (B64.of_int 3) in
  exists state' frame,
    graphics_run (libm := plain_libm) 4 Header._INFINITY (Color.of_hexcode IN_SET_COLOR)
      (fun _ => true)
      [[SDL_KEYDOWN SDLK_LEFT; SDL_QUIT; SDL_KEYDOWN SDLK_LEFT]; [SDL_KEYDOWN SDLK_UP]]
      state [] = Some (state', [frame]) /\
    running state' = false /\
    Point.x (center state') = b64_ratio (-11) 10 /\
    Point.y (center state') = B64.of_int 0.
Proof.
  intros state. do 2 eexists. split.
  - apply (quit_ends_run binary64 plain_libm 4 Header._INFINITY
             (Color.of_hexcode IN_SET_COLOR) (fun _ => true)
             [SDL_KEYDOWN SDLK_LEFT; SDL_QUIT; SDL_KEYDOWN SDLK_LEFT]
             [[SDL_KEYDOWN SDLK_UP]] state []).
    + reflexivity.
    + left. simpl. tauto.
    + reflexivity.
  - vm_compute. repeat split.
Defined.

(** X15. Frames are only ever added: a run over [n] ticks keeps the
    frames presented before it and adds at most [n] new ones. *)
Theorem graphics_run_frames_grow {D : Type} (ops : DoubleOps D) (libm : CMath D)
    (MAX_ITERATION : Z) (threshold : D) (in_set : Color.t) (host_ok : GState D -> bool)
    (ticks : list (list SDL_Event)) (state state' : GState D)
    (frames frames' : list (list Color.t)) :
  graphics_run MAX_ITERATION threshold in_set host_ok ticks state frames
    = Some (state', frames') ->
  exists shown, frames' = frames ++ shown /\ (length shown <= length ticks)%nat.
Proof. apply graphics_run_extends. Qed.

Lemma graphics_run_frames_grow_witness :
  let state := sample_state 2 2 (b64_ratio (-1) 2) (B64.of_int 0)
                            (B64.of_int 3) (B64.of_int 3) in
  exists state' frames' shown,
    graphics_run (libm := plain_libm) 4 Header._INFINITY (Color.of_hexcode IN_SET_COLOR)
      (fun _ => true) [[SDL_KEYDOWN SDLK_LEFT]; []; [SDL_MOUSEWHEEL 1; SDL_OTHER]]
      state [[Color.mk 1 1 1]] = Some (state', frames') /\
    frames' = [Color.mk 1 1 1] :: shown /\ (length shown <= 3)%nat.
Proof.
  intros state.
  destruct (graphics_run (libm := plain_libm) 4 Header._INFINITY
              (Color.of_hexcode IN_SET_COLOR) (fun _ => true)
              [[SDL_KEYDOWN SDLK_LEFT]; []; [SDL_MOUSEWHEEL 1; SDL_OTHER]]
              state [[Color.mk 1 1 1]]) as [[state' frames']|] eqn:Hrun;
    [|vm_compute in Hrun; discriminate Hrun].
  destruct (graphics_run_frames_grow binary64 plain_libm _ _ _ _ _ _ _ _ _ Hrun)
    as (shown & Heq & Hlen).
  exists state', frames', shown.
  split; [reflexivity|]. split; [exact Heq | exact Hlen].
Defined.

(** X16. An event the handler has no case for (an unknown event type or
    key, a wheel step other than 1 and -1, a left or middle click) leaves
    the whole viewport untouched and still costs a redraw: the tick
    presents one frame, the picture of the unchanged state. *)
Theorem ignored_event_redraws {D : Type} (ops : DoubleOps D) (libm : CMath D)
    (MAX_ITERATION : Z) (threshold : D) (in_set : Color.t) (host_ok : GState D -> bool)
    (state : GState D) (e : SDL_Event) :
  e = SDL_OTHER \/ e = SDL_KEYDOWN SDLK_other \/
  (exists wy, e = SDL_MOUSEWHEEL wy /\ wy <> -1 /\ wy <> 1) \/
  (exists x y, e = SDL_MOUSEBUTTONDOWN SDL_BUTTON_LEFT x y \/
               e = SDL_MOUSEBUTTONDOWN SDL_BUTTON_MIDDLE x y) ->
  host_ok (set_changed true state) = true ->
  handle_event state e = set_changed true state /\
  tick MAX_ITERATION threshold in_set host_ok state [e]
    = Some (set_changed false state,
            [mandelbrot_pixels MAX_ITERATION threshold in_set
               (REAL_LO state) (REAL_HI state) (IMAG_LO state) (IMAG_HI state)
               (window_w state) (window_h state) (palette state)]).
Proof.
  intros He Hok.
  assert (Hh : handle_event state e = set_changed true state).
  { destruct He as [-> | [-> | [(wy & -> & H1 & H2) | (x & y & [-> | ->])]]];
      try reflexivity.
    unfold handle_event, dispatch.
    destruct (Z.eqb_spec wy (-1)); [contradiction|].
    destruct (Z.eqb_spec wy 1); [contradiction|]. reflexivity. }
  split; [exact Hh|].
  unfold tick. cbn [event_handler fold_left]. rewrite Hh.
  cbn [changed set_changed]. unfold update. rewrite Hok. reflexivity.
Qed.

Lemma ignored_event_redraws_witness :
  let state := sample_state 2 2 (b64_ratio (-1) 2) (B64.of_int 0)
                            (B64.of_int 3) (B64.of_int 3) in
  handle_event state (SDL_MOUSEWHEEL 3) = set_changed true state.
Proof.
  intros state.
  apply (proj1 (ignored_event_redraws binary64 plain_libm 4 Header._INFINITY
                  (Color.of_hexcode IN_SET_COLOR) (fun _ => true) state
                  (SDL_MOUSEWHEEL 3)
                  ltac:(right; right; left; exists 3; repeat split; lia)
                  eq_refl)).
Defined.

(** ** The sign of the ranges *)

Lemma ZOOM_RATIO_positive : B64_positive ZOOM_RATIO = true.
Proof. reflexivity. Qed.

Lemma handle_event_ranges_sign (state : GState spec_float) (e : SDL_Event) :
  B64_nonneg (real_range state) = true -> B64_nonneg (imag_range state) = true ->
  B64_nonneg (real_range (handle_event state e)) = true /\
  B64_nonneg (imag_range (handle_event state e)) = true.
Proof.
  intros Hr Hi.
  pose proof (fun v H => B64_nonneg_div v ZOOM_RATIO H ZOOM_RATIO_positive) as Hin.
  pose proof (fun v H => B64_nonneg_mul v ZOOM_RATIO H ZOOM_RATIO_positive) as Hout.
  event_cases e; cbn [handle_event dispatch set_changed set_running set_center_x
    set_center_y set_center zoom_in zoom_out set_real_range set_imag_range recenter
    recenter_x recenter_y real_range imag_range];
    split; auto.
Qed.

(** X17. At binary64 the event handler never makes a range negative or
    NaN: from ranges that are [+0], positive finite or [+infinity], both
    ranges are again [+0], positive finite or [+infinity] after any queue
    of events. Only the zoom keys write them, dividing or multiplying by
    the positive ratio, and rounding keeps the sign, also when the
    quotient underflows to [+0] or the product overflows. *)
Theorem event_handler_ranges_sign (queue : list SDL_Event)
    (state : GState spec_float) :
  B64_nonneg (real_range state) = true -> B64_nonneg (imag_range state) = true ->
  B64_nonneg (real_range (event_handler state queue)) = true /\
  B64_nonneg (imag_range (event_handler state queue)) = true.
Proof.
  unfold event_handler. revert state.
  induction queue as [|e queue IH]; intros state Hr Hi; simpl; [split; assumption|].
  destruct (handle_event_ranges_sign state e Hr Hi) as [Hr' Hi'].
  apply IH; assumption.
Qed.

(** From the ranges 2^1023, eight zooms out (the products overflow on
    the way), then a zoom in and a move. *)
Lemma event_handler_ranges_sign_witness :
  let state := sample_state 100 100 (B64.of_int 0) (B64.of_int 0) b64_huge b64_huge in
  let queue := replicate 8 (SDL_KEYDOWN SDLK_MINUS)
                 ++ [SDL_KEYDOWN SDLK_PLUS; SDL_KEYDOWN SDLK_UP] in
  B64_nonneg (real_range (event_handler state queue)) = true /\
  B64_nonneg (imag_range (event_handler state queue)) = true.
Proof.
  apply event_handler_ranges_sign; reflexivity.
Defined.

(** ** The console dump *)

(** X18. The dump tests the returned index against zero, so it shows a
    sample as outside (a blank) only when its very first iterate exceeds
    the threshold (index 0); a point that escapes at any later index is
    shown with the same [*] as a point that never escapes. *)
Theorem print_cell_blank_iff {D : Type} (ops : DoubleOps D) (libm : CMath D)
    (MAX_ITERATION : Z) (threshold : D) (r i : D) :
  (print_cell MAX_ITERATION threshold r i = OUT_CHAR <->
   0 < MAX_ITERATION /\
   dgt (cabs (orbit (print_point r i) 1)) threshold = true) /\
  (print_cell MAX_ITERATION threshold r i = IN_CHAR <->
   mandelbrot_in_set MAX_ITERATION threshold (print_point r i) = -1 \/
   1 <= mandelbrot_in_set MAX_ITERATION threshold (print_point r i) < MAX_ITERATION).
Proof.
  unfold print_cell.
  pose proof (in_set_index_iff threshold MAX_ITERATION (print_point r i) 0) as H0.
  change (Z.of_nat 0) with 0 in H0.
  pose proof (in_set_loop_range threshold (print_point r i)
                (Z.to_nat (MAX_ITERATION - 0)) 0 (complex_of_int 0)) as Hr.
  unfold mandelbrot_in_set, mandelbrot_run in *.
  destruct (in_set_loop threshold (print_point r i) _ 0 _) as [v n]. simpl in *.
  destruct Hr as [Hv _].
  destruct (Z.eqb_spec v 0) as [-> | Hne]; split; split.
  - intros _. destruct (proj1 H0 eq_refl) as (Hlt & Hesc & _). split; [lia | exact Hesc].
  - reflexivity.
  - intros E. discriminate E.
  - lia.
  - intros E. discriminate E.
  - intros [HM Hesc]. exfalso. apply Hne. apply H0.
    split; [lia|]. split; [exact Hesc | intros k Hk; lia].
  - intros _. lia.
  - reflexivity.
Qed.

(** With the threshold 2 and 50 iterations, the point [2 + 0i], which
    escapes at index 1, is printed as [*]. *)
Example print_cell_late_escape :
  mandelbrot_in_set (libm := plain_libm) 50 (B64.of_int 2)
    (print_point (B64.of_int 2) (B64.of_int 0)) = 1 /\
  print_cell (libm := plain_libm) 50 (B64.of_int 2) (B64.of_int 2) (B64.of_int 0) = IN_CHAR.
Proof. vm_compute. split; reflexivity. Qed.

(** At binary64 the accumulated [r] can stop short of [REAL_HI]: from
    -2 to 1 a row has 46 samples, from -1 to 1 it has 47. *)
Example print_row_binary64_samples :
  (length <$> print_row (libm := plain_libm) 3 Header._INFINITY
                (B64.of_int (-2)) (B64.of_int 1) 100 (B64.of_int 0) (B64.of_int (-2)))
    = Some (2 * 46)%nat /\
  (length <$> print_row (libm := plain_libm) 3 Header._INFINITY
                (B64.of_int (-1)) (B64.of_int 1) 100 (B64.of_int 0) (B64.of_int (-1)))
    = Some (2 * 47)%nat.
Proof. vm_compute. split; reflexivity. Qed.
